(** * Repository discovery of the multi-tenant chart server

    A shallow embedding of [pkg/chartmuseum/server/multitenant/handlers_repos.go]:
    the handler of [GET /api/repositories], its two discovery strategies
    ([discoverReposLocalFS] and [discoverReposFromStorage]) and the feature
    flag [allowListRepos].

    Go strings are byte sequences, so they are modelled by [string] (a list of
    [ascii] bytes).  Calls that leave the process (environment, file system,
    storage backend) are functions of an explicit environment and are logged in
    a trace, so that statements such as "the backend is never asked" can be
    made.  The keys of a Go map are visited in an unspecified order; that order
    is a parameter of the model. *)

From stdpp Require Import base decidable option list sorting gmap strings.
From Stdlib Require Import ZArith Ascii Lia.

Set Warnings "-clear-no-such-hyp".

Local Open Scope string_scope.
Local Open Scope Z_scope.
Local Open Scope list_scope.

(** ** The part of Go's [strings] package used by the source *)

Module strings.

(** [trimLeftByte]: [for len(s) > 0 && s[0] == c { s = s[1:] }]. *)
Fixpoint trimLeftByte (s : string) (c : ascii) : string :=
  match s with
  | String a s' => if Ascii.eqb a c then trimLeftByte s' c else s
  | EmptyString => s
  end.

Fixpoint inCutset (a : ascii) (cutset : string) : bool :=
  match cutset with
  | String c rest => Ascii.eqb a c || inCutset a rest
  | EmptyString => false
  end.

Fixpoint trimLeftSet (s cutset : string) : string :=
  match s with
  | String a s' => if inCutset a cutset then trimLeftSet s' cutset else s
  | EmptyString => s
  end.

(** [strings.TrimLeft(s, cutset)] for a cutset of ASCII bytes (the source
    passes ["/"]): a one-byte cutset takes the [trimLeftByte] path. *)
Definition TrimLeft (s cutset : string) : string :=
  match cutset with
  | String c EmptyString => trimLeftByte s c
  | _ => trimLeftSet s cutset
  end.

(** [strings.Index(s, substr)]: the byte index of the first instance of
    [substr] in [s], or [-1]. *)
Fixpoint Index (s substr : string) : Z :=
  if String.prefix substr s then 0
  else match s with
       | EmptyString => -1
       | String _ s' =>
           let i := Index s' substr in
           if i <? 0 then -1 else i + 1
       end.

(** [strings.IndexByte(s, c)]. *)
Fixpoint IndexByte (s : string) (c : ascii) : Z :=
  match s with
  | EmptyString => -1
  | String a s' =>
      if Ascii.eqb a c then 0
      else let i := IndexByte s' c in
           if i <? 0 then -1 else i + 1
  end.

End strings.

(** The slice expression [s[:hi]].  Go panics when [hi] is out of range; the
    source only slices at an index returned by [Index] or [IndexByte], which
    is in range (lemmas [Index_range] and [IndexByte_range] below). *)
Definition slice_to (s : string) (hi : Z) : string :=
  String.substring 0 (Z.to_nat hi) s.

(** ** Values exchanged with the outside world *)

(** A Go [error]; [Error] is the method [err.Error()]. *)
Record error := mkError { Error : string }.

(** [storage.Object]: only its [Path] is read by the source. *)
Record Object := mkObject { Path : string }.

(** [fs.FileInfo] and [fs.DirEntry], with the methods the source calls. *)
Record FileInfo := mkFileInfo { FileInfo_IsDir : bool }.
Record DirEntry := mkDirEntry { Name : string; IsDir : bool }.

(** The storage backend is consumed through [ListObjects] alone.  Go returns
    the pair [(objs, err)]; [None] is the [nil] error. *)
Record Backend := mkBackend {
  ListObjects : string -> list Object * option error
}.

Record MultiTenantServer := mkServer { StorageBackend : Backend }.

(** The process environment and the file system, as the functions of [os] and
    [path/filepath] that the source calls.  [Getenv] yields the empty string
    for an unset variable, [Stat] yields a [FileInfo] or an error, [ReadDir]
    and [Glob] yield a slice together with an error, [Join] is pure. *)
Record OS := mkOS {
  Getenv : string -> string;
  Stat : string -> FileInfo + error;
  ReadDir : string -> list DirEntry * option error;
  Glob : string -> list string * option error;
  Join : list string -> string
}.

(** The order in which [for k := range set] visits the keys of a map is not
    specified by Go: any enumeration of the keys may be observed. *)
Record MapOrder := mkMapOrder {
  range_keys : gset string -> list string;
  range_keys_perm : forall X, range_keys X ≡ₚ elements X
}.

(** ** Calls that leave the process, and their log *)

Inductive Event :=
| CallGetenv (key : string)
| CallStat (name : string)
| CallReadDir (name : string)
| CallGlob (pattern : string)
| CallListObjects (prefix : string).

#[global] Instance Event_eq_dec : EqDecision Event.
Proof. solve_decision. Defined.

Record IO (A : Type) := mkIO { value : A; trace : list Event }.
Arguments mkIO {A} _ _.
Arguments value {A} _.
Arguments trace {A} _.

#[global] Instance IO_ret : MRet IO := fun A a => mkIO a [].
#[global] Instance IO_bind : MBind IO := fun A B f m =>
  let r := f (value m) in mkIO (value r) (trace m ++ trace r).

Definition call {A} (e : Event) (a : A) : IO A := mkIO a [e].

Definition os_Getenv (os : OS) (key : string) : IO string :=
  call (CallGetenv key) (Getenv os key).
Definition os_Stat (os : OS) (name : string) : IO (FileInfo + error) :=
  call (CallStat name) (Stat os name).
Definition os_ReadDir (os : OS) (name : string) : IO (list DirEntry * option error) :=
  call (CallReadDir name) (ReadDir os name).
Definition filepath_Glob (os : OS) (pattern : string) : IO (list string * option error) :=
  call (CallGlob pattern) (Glob os pattern).
Definition backend_ListObjects (b : Backend) (prefix : string)
  : IO (list Object * option error) :=
  call (CallListObjects prefix) (ListObjects b prefix).

(** [for _, x := range xs { ... }] with the loop state threaded through. *)
Fixpoint for_range {A S} (body : S -> A -> IO S) (st : S) (xs : list A) : IO S :=
  match xs with
  | [] => mret st
  | x :: rest => st' ← body st x; for_range body st' rest
  end.

(** [sort.Strings]: increasing order of Go's [<] on strings, which compares
    bytes lexicographically.  The order is total and antisymmetric, so the
    sorted slice does not depend on the sorting algorithm. *)
Definition sort_Strings (names : list string) : list string :=
  merge_sort String.le names.

(** The keys of the set collected into a slice and sorted:
    [for k := range set { names = append(names, k) }; sort.Strings(names)]. *)
Definition sorted_keys (ord : MapOrder) (set : gset string) : list string :=
  sort_Strings (range_keys ord set).

(** ** HTTP responses *)

Module http.
Definition StatusOK : Z := 200.
Definition StatusForbidden : Z := 403.
Definition StatusInternalServerError : Z := 500.
End http.

(** What [c.JSON(code, obj)] is given: a slice of strings, or a [gin.H] (a map
    from keys to values, here with string values). *)
Inductive Body :=
| Strings (names : list string)
| H (fields : list (string * string)).

Record Response := JSON { status : Z; body : Body }.

(** ** Feature flags *)

Definition allowListRepos (s : MultiTenantServer) : bool := true.
Definition allowChartsAll (s : MultiTenantServer) : bool := false.
Definition repoListMaxObjects (s : MultiTenantServer) : Z := 0.

(** ** Local-tree discovery *)

(** The inner loop of [discoverReposLocalFS]:
    [for _, g := range globs { matches, _ := filepath.Glob(g);
       if len(matches) > 0 { set[repo] = struct{}{}; break } }]. *)
Fixpoint glob_loop (os : OS) (repo : string) (set : gset string)
    (globs : list string) : IO (gset string) :=
  match globs with
  | [] => mret set
  | g :: rest =>
      '(matches, _) ← filepath_Glob os g;
      if 0 <? Z.of_nat (length matches) then mret ({[repo]} ∪ set)
      else glob_loop os repo set rest
  end.

(** The body of [for _, e := range entries]. *)
Definition localFS_body (os : OS) (root : string) (set : gset string)
    (e : DirEntry) : IO (gset string) :=
  if negb (IsDir e) then mret set
  else
    let repo := Name e in
    let globs := [ Join os [root; repo; "charts"; "*.tgz"];
                   Join os [root; repo; "*.tgz"] ] in
    glob_loop os repo set globs.

(** [discoverReposLocalFS]; the [nil] slice is the empty list. *)
Definition discoverReposLocalFS (ord : MapOrder) (os : OS)
    (s : MultiTenantServer) : IO (list string * bool) :=
  root ← os_Getenv os "STORAGE_LOCAL_ROOTDIR";
  if decide (root = "") then mret ([], false)
  else
    st ← os_Stat os root;
    match st with
    | inr _ => mret ([], false)
    | inl fi =>
        if negb (FileInfo_IsDir fi) then mret ([], false)
        else
          '(entries, err) ← os_ReadDir os root;
          match err with
          | Some _ => mret ([], false)
          | None =>
              set ← for_range (localFS_body os root) ∅ entries;
              if decide (size set = 0%nat) then mret ([], false)
              else mret (sorted_keys ord set, true)
          end
    end.

(** ** Generic object discovery *)

(** The body of [for _, o := range objs]. *)
Definition storage_body (set : gset string) (o : Object) : gset string :=
  let p := strings.TrimLeft (Path o) "/" in
  if decide (p = "") then set
  else
    let idx := strings.Index p "/charts/" in
    if 0 <? idx then
      let repo := slice_to p idx in
      if decide (repo <> "") then {[repo]} ∪ set else set
    else
      let i := strings.IndexByte p "/" in
      if 0 <? i then {[slice_to p i]} ∪ set else set.

Definition discoverReposFromStorage (ord : MapOrder) (s : MultiTenantServer)
    (prefix : string) : IO (list string * option error) :=
  '(objs, err) ← backend_ListObjects (StorageBackend s) prefix;
  match err with
  | Some err => mret ([], Some err)
  | None =>
      let set := foldl storage_body ∅ objs in
      mret (sorted_keys ord set, None)
  end.

(** ** The handler of [GET /api/repositories] *)

(** The handler's body, with the method it calls for the access gate as a
    parameter. *)
Definition listRepositoriesHandler_gated (gate : MultiTenantServer -> bool)
    (ord : MapOrder) (os : OS) (s : MultiTenantServer) : IO Response :=
  if negb (gate s) then
    mret (JSON http.StatusForbidden (H [("error", "listing repositories is disabled")]))
  else
    '(names, ok) ← discoverReposLocalFS ord os s;
    if (ok : bool) then mret (JSON http.StatusOK (Strings names))
    else
      '(names, err) ← discoverReposFromStorage ord s "";
      match err with
      | Some err => mret (JSON http.StatusInternalServerError (H [("error", Error err)]))
      | None => mret (JSON http.StatusOK (Strings names))
      end.

(** [listRepositoriesHandler]: the gate is the method [allowListRepos]. *)
Definition listRepositoriesHandler : MapOrder -> OS -> MultiTenantServer -> IO Response :=
  listRepositoriesHandler_gated allowListRepos.

(** [listAllChartsAcrossReposHandler]: the optional route always answers 403. *)
Definition listAllChartsAcrossReposHandler (s : MultiTenantServer) : IO Response :=
  mret (JSON http.StatusForbidden (H [("error", "charts-all is disabled")])).

(** ** Concrete environments *)

(** Two admissible iteration orders: the enumeration of [elements] and its
    reverse. *)
Definition ord_elements : MapOrder :=
  mkMapOrder elements (fun X => reflexivity (elements X)).

Definition ord_reverse : MapOrder :=
  mkMapOrder (fun X => reverse (elements X)) (fun X => reverse_Permutation (elements X)).

(** [filepath.Join] on elements that are already clean: joined by ['/']. *)
Fixpoint join_plain (elems : list string) : string :=
  match elems with
  | [] => ""
  | [e] => e
  | e :: rest => e +:+ "/" +:+ join_plain rest
  end.

Definition lookup_table {A} (table : list (string * A)) (default : A) (k : string) : A :=
  match list_find (fun kv => fst kv = k) table with
  | Some (_, kv) => snd kv
  | None => default
  end.

Definition ENOENT : error := mkError "no such file or directory".

(** The local root [/charts] holds [repoA/charts/webapp-0.1.0.tgz],
    [repoB/api-1.0.0.tgz], a directory [empty] without archives and a plain
    file [README]. *)
Definition entries_two_repos : list DirEntry :=
  [ mkDirEntry "README" false; mkDirEntry "empty" true;
    mkDirEntry "repoB" true; mkDirEntry "repoA" true ].

Definition os_two_repos : OS := {|
  Getenv := lookup_table [("STORAGE_LOCAL_ROOTDIR", "/charts")] "";
  Stat := lookup_table [("/charts", inl (mkFileInfo true))] (inr ENOENT);
  ReadDir := lookup_table [("/charts", (entries_two_repos, None))] ([], Some ENOENT);
  Glob := lookup_table
    [("/charts/repoA/charts/*.tgz", (["/charts/repoA/charts/webapp-0.1.0.tgz"], None));
     ("/charts/repoB/*.tgz", (["/charts/repoB/api-1.0.0.tgz"], None))]
    ([], None);
  Join := join_plain
|}.

(** No local root is configured. *)
Definition os_unset : OS := {|
  Getenv := fun _ => "";
  Stat := fun _ => inr ENOENT;
  ReadDir := fun _ => ([], Some ENOENT);
  Glob := fun _ => ([], None);
  Join := join_plain
|}.

Definition backend_of (objs : list string) : Backend :=
  mkBackend (fun _ => (mkObject <$> objs, None)).

Definition backend_failing (msg : string) : Backend :=
  mkBackend (fun _ => ([], Some (mkError msg))).

Definition server_three_objects : MultiTenantServer :=
  mkServer (backend_of ["t1/charts/a.tgz"; "t2/b.tgz"; "noslash"]).

Definition server_failing : MultiTenantServer :=
  mkServer (backend_failing "backend unreachable").

(** ** Occurrences of a pattern in a string *)

(** [sub] occurs in [s] at byte position [i]. *)
Definition occurs_at (sub s : string) (i : nat) : Prop :=
  exists pre post, s = pre +:+ sub +:+ post /\ String.length pre = i.

(** ** The naming rule, in the words of the specification *)

Fixpoint slashes (n : nat) : string :=
  match n with
  | O => ""
  | S n' => String "/" (slashes n')
  end.

(** [p] is [path] with its leading slashes stripped. *)
Definition Stripped (path p : string) : Prop :=
  (exists n, path = slashes n +:+ p) /\ forall t, p <> String "/" t.

(** [p] contains [sub] at a position greater than zero. *)
Definition contains_after_start (sub p : string) : Prop :=
  exists i, (0 < i)%nat /\ occurs_at sub p i.

(** [pre] is what precedes the first occurrence of [sub] in [p]. *)
Definition prefix_before_first (sub p pre : string) : Prop :=
  (exists post, p = pre +:+ sub +:+ post)
  /\ forall j, (j < String.length pre)%nat -> ~ occurs_at sub p j.

(** The repository name inferred from a stripped path: the prefix before
    ["/charts/"] when the path contains it at a position greater than zero;
    otherwise the first ['/']-delimited segment when the path contains a
    ['/'] at a position greater than zero; otherwise none. *)
Inductive Spec_Inferred (p : string) : option string -> Prop :=
| Inferred_charts pre :
    contains_after_start "/charts/" p ->
    prefix_before_first "/charts/" p pre ->
    Spec_Inferred p (Some pre)
| Inferred_segment seg :
    ~ contains_after_start "/charts/" p ->
    contains_after_start "/" p ->
    prefix_before_first "/" p seg ->
    Spec_Inferred p (Some seg)
| Inferred_nothing :
    ~ contains_after_start "/charts/" p ->
    ~ contains_after_start "/" p ->
    Spec_Inferred p None.

(** The name inferred from a stored object's path. *)
Definition Spec_InfersName (path : string) (r : option string) : Prop :=
  exists p, Stripped path p /\ Spec_Inferred p r.

(** Adding an inferred name, if any, to the set of names. *)
Definition add_name (r : option string) (set : gset string) : gset string :=
  match r with
  | Some name => {[name]} ∪ set
  | None => set
  end.

(** ** Predicates on the environment and on the log of calls *)

(** The calls the local-tree discoverer may make: reading the variable
    [STORAGE_LOCAL_ROOTDIR] and inspecting the file system.  Calls to the
    storage backend and reads of other variables are excluded. *)
Definition is_local_call (e : Event) : bool :=
  match e with
  | CallGetenv key => bool_decide (key = "STORAGE_LOCAL_ROOTDIR")
  | CallStat _ | CallReadDir _ | CallGlob _ => true
  | CallListObjects _ => false
  end.

Definition local_only (t : list Event) : Prop :=
  Forall (fun e => is_local_call e = true) t.

(** At least one path matches the pattern: [len(matches) > 0]. *)
Definition matches_some (os : OS) (pattern : string) : Prop :=
  (Glob os pattern).1 <> [].

(** The directory [d] under [root] has an archive in one of the two layouts:
    [<root>/<d>/charts/*.tgz] or [<root>/<d>/*.tgz]. *)
Definition has_archive (os : OS) (root d : string) : Prop :=
  matches_some os (Join os [root; d; "charts"; "*.tgz"])
  \/ matches_some os (Join os [root; d; "*.tgz"]).

#[global] Instance matches_some_dec os pattern : Decision (matches_some os pattern).
Proof. unfold matches_some. apply _. Defined.

#[global] Instance has_archive_dec os root d : Decision (has_archive os root d).
Proof. unfold has_archive. apply _. Defined.

(** The names collected by the loop over the entries of the root. *)
Definition qualifying (os : OS) (root : string) (entries : list DirEntry) : gset string :=
  value (for_range (localFS_body os root) ∅ entries).

(** The local-tree discoverer cannot be used: no root is configured, the root
    cannot be inspected or is not a directory, its enumeration fails, or no
    child directory has an archive. *)
Definition local_inapplicable (os : OS) : Prop :=
  let root := Getenv os "STORAGE_LOCAL_ROOTDIR" in
  root = ""
  \/ (exists err, Stat os root = inr err)
  \/ (exists fi, Stat os root = inl fi /\ FileInfo_IsDir fi = false)
  \/ (exists err, (ReadDir os root).2 = Some err)
  \/ (forall e, e ∈ (ReadDir os root).1 -> IsDir e = true ->
                ~ has_archive os root (Name e)).

(** The response built from what the generic object discoverer returns. *)
Definition respond_generic (g : list string * option error) : Response :=
  match g with
  | (_, Some err) => JSON http.StatusInternalServerError (H [("error", Error err)])
  | (names, None) => JSON http.StatusOK (Strings names)
  end.

(** The listing of [server_three_objects] with a leading slash on every
    path, and the same listing in another order with a repeated object. *)
Definition server_three_objects_slashed : MultiTenantServer :=
  mkServer (backend_of ["/t1/charts/a.tgz"; "/t2/b.tgz"; "/noslash"]).

Definition server_three_objects_shuffled : MultiTenantServer :=
  mkServer (backend_of ["noslash"; "t2/b.tgz"; "t1/charts/a.tgz"; "t2/b.tgz"]).

Definition server_two_objects : MultiTenantServer :=
  mkServer (backend_of ["t2/b.tgz"; "noslash"]).

Definition server_top_level_only : MultiTenantServer :=
  mkServer (backend_of ["noslash"; "/index.yaml"; ""]).

(** ** Directories whose names contain pattern characters *)

(** [s] ends with [suffix]. *)
Fixpoint ends_with (s suffix : string) : bool :=
  String.eqb s suffix
  || match s with
     | String _ s' => ends_with s' suffix
     | EmptyString => false
     end.

(** The directory [d] under [root] contains an archive: an entry whose name
    ends with [.tgz], in [<root>/<d>/charts] or in [<root>/<d>] itself.  This
    reads the content of the directory called [d], where [has_archive] reads
    what [filepath.Glob] answers on a pattern built from the name [d]. *)
Definition contains_archive (os : OS) (root d : string) : Prop :=
  Exists (fun e => ends_with (Name e) ".tgz" = true)
    (ReadDir os (Join os [root; d; "charts"])).1
  \/ Exists (fun e => ends_with (Name e) ".tgz" = true)
       (ReadDir os (Join os [root; d])).1.

(** The root [/charts] holds an empty directory named [a*] and a directory
    [ab] with the file [x.tgz].  As a pattern, [a*] also matches [ab], so
    [filepath.Glob] finds [/charts/ab/x.tgz] for [/charts/a*/*.tgz]. *)
Definition os_star_tree : OS := {|
  Getenv := lookup_table [("STORAGE_LOCAL_ROOTDIR", "/charts")] "";
  Stat := lookup_table
    [("/charts", inl (mkFileInfo true)); ("/charts/a*", inl (mkFileInfo true));
     ("/charts/ab", inl (mkFileInfo true)); ("/charts/ab/x.tgz", inl (mkFileInfo false))]
    (inr ENOENT);
  ReadDir := lookup_table
    [("/charts", ([mkDirEntry "a*" true; mkDirEntry "ab" true], None));
     ("/charts/a*", ([], None));
     ("/charts/ab", ([mkDirEntry "x.tgz" false], None))]
    ([], Some ENOENT);
  Glob := lookup_table
    [("/charts/a*/*.tgz", (["/charts/ab/x.tgz"], None));
     ("/charts/ab/*.tgz", (["/charts/ab/x.tgz"], None))]
    ([], None);
  Join := join_plain
|}.

(** The root [/charts] holds one directory, named [[x]], with the file
    [y.tgz].  As a pattern, [[x]] matches the name [x] only, so
    [filepath.Glob] finds nothing for [/charts/[x]/*.tgz]. *)
Definition os_class_tree : OS := {|
  Getenv := lookup_table [("STORAGE_LOCAL_ROOTDIR", "/charts")] "";
  Stat := lookup_table
    [("/charts", inl (mkFileInfo true)); ("/charts/[x]", inl (mkFileInfo true));
     ("/charts/[x]/y.tgz", inl (mkFileInfo false))]
    (inr ENOENT);
  ReadDir := lookup_table
    [("/charts", ([mkDirEntry "[x]" true], None));
     ("/charts/[x]", ([mkDirEntry "y.tgz" false], None))]
    ([], Some ENOENT);
  Glob := fun _ => ([], None);
  Join := join_plain
|}.

(** ** The route table *)

(** A reference to a handler method of the server, as in
    [Handler: s.getInfoHandler]. *)
Inductive HandlerRef :=
| getWelcomePageHandler
| getInfoHandler
| getHealthCheckHandler
| getArtifactHubFileRequestHandler
| getIndexFileRequestHandler
| headIndexFileRequestHandler
| getStorageObjectRequestHandler
| getAllChartsRequestHandler
| headChartRequestHandler
| getChartRequestHandler
| headChartVersionRequestHandler
| getChartVersionRequestHandler
| getStorageObjectTemplateRequestHandler
| getStorageObjectValuesRequestHandler
| postRequestHandler
| postProvenanceFileRequestHandler
| listRepositoriesHandlerRef
| listAllChartsAcrossReposHandlerRef
| getStaticFilesHandler
| deleteChartVersionRequestHandler.

#[global] Instance HandlerRef_eq_dec : EqDecision HandlerRef.
Proof. solve_decision. Defined.

Module cm_router.
Record Route := mkRoute {
  Method : string;
  Path : string;
  Handler : HandlerRef;
  Action : string
}.
End cm_router.

(** The fields of the server that [Routes] reads.  In the source they are
    fields of [MultiTenantServer]; they are kept in a record of their own
    here, beside the server value used by the discovery code.  Of
    [ArtifactHubRepoID] only its length is read. *)
Record RouteSettings := mkRouteSettings {
  ArtifactHubRepoID_len : Z;
  WebTemplatePath : string;
  APIEnabled : bool;
  DisableDelete : bool
}.

Section route_table.

(** The constants [cm_auth.PullAction] and [cm_auth.PushAction]. *)
Variables (PullAction PushAction : string).

Definition serverInfoRoutes : list cm_router.Route :=
  [ cm_router.mkRoute "GET" "/" getWelcomePageHandler PullAction;
    cm_router.mkRoute "GET" "/info" getInfoHandler "";
    cm_router.mkRoute "GET" "/health" getHealthCheckHandler "" ].

Definition artifactHubRoutes : list cm_router.Route :=
  [ cm_router.mkRoute "GET" "/artifacthub-repo.yml" getArtifactHubFileRequestHandler
      PullAction ].

Definition helmChartRepositoryRoutes : list cm_router.Route :=
  [ cm_router.mkRoute "GET" "/:repo/index.yaml" getIndexFileRequestHandler PullAction;
    cm_router.mkRoute "HEAD" "/:repo/index.yaml" headIndexFileRequestHandler PullAction;
    cm_router.mkRoute "GET" "/:repo/charts/:filename" getStorageObjectRequestHandler
      PullAction ].

Definition chartManipulationRoutes : list cm_router.Route :=
  [ cm_router.mkRoute "GET" "/api/:repo/charts" getAllChartsRequestHandler PullAction;
    cm_router.mkRoute "HEAD" "/api/:repo/charts/:name" headChartRequestHandler PullAction;
    cm_router.mkRoute "GET" "/api/:repo/charts/:name" getChartRequestHandler PullAction;
    cm_router.mkRoute "HEAD" "/api/:repo/charts/:name/:version"
      headChartVersionRequestHandler PullAction;
    cm_router.mkRoute "GET" "/api/:repo/charts/:name/:version"
      getChartVersionRequestHandler PullAction;
    cm_router.mkRoute "GET" "/api/:repo/charts/:name/:version/templates"
      getStorageObjectTemplateRequestHandler PullAction;
    cm_router.mkRoute "GET" "/api/:repo/charts/:name/:version/values"
      getStorageObjectValuesRequestHandler PullAction;
    cm_router.mkRoute "POST" "/api/:repo/charts" postRequestHandler PushAction;
    cm_router.mkRoute "POST" "/api/:repo/prov" postProvenanceFileRequestHandler
      PushAction ].

Definition repositoryListingRoutes : list cm_router.Route :=
  [ cm_router.mkRoute "GET" "/api/repositories" listRepositoriesHandlerRef PullAction ].

Definition chartsAllRoutes : list cm_router.Route :=
  [ cm_router.mkRoute "GET" "/api/charts-all" listAllChartsAcrossReposHandlerRef
      PullAction ].

(** [Routes]: the slice [routes] after each [append], in the order of the
    source. *)
Definition Routes (s : MultiTenantServer) (cfg : RouteSettings) : list cm_router.Route :=
  let routes := [] in
  let routes := routes ++ serverInfoRoutes in
  let routes := routes ++ helmChartRepositoryRoutes in
  let routes :=
    if negb (ArtifactHubRepoID_len cfg =? 0) then routes ++ artifactHubRoutes
    else routes in
  let routes :=
    if decide (WebTemplatePath cfg <> "")
    then routes ++ [cm_router.mkRoute "GET" "/static" getStaticFilesHandler PullAction]
    else routes in
  let routes :=
    if APIEnabled cfg then
      let routes := routes ++ chartManipulationRoutes in
      let routes :=
        if allowListRepos s then routes ++ repositoryListingRoutes else routes in
      if allowChartsAll s then routes ++ chartsAllRoutes else routes
    else routes in
  if APIEnabled cfg && negb (DisableDelete cfg)
  then routes ++ [cm_router.mkRoute "DELETE" "/api/:repo/charts/:name/:version"
                    deleteChartVersionRequestHandler PushAction]
  else routes.

End route_table.

(** The method and path under which a route is registered. *)
Definition route_key (r : cm_router.Route) : string * string :=
  (cm_router.Method r, cm_router.Path r).

(** Settings with every optional group of routes switched on, and with the
    API switched off. *)
Definition settings_all_on : RouteSettings :=
  mkRouteSettings 1 "/templates" true false.

Definition settings_api_off : RouteSettings :=
  mkRouteSettings 0 "" false false.

(** The number of glob calls in a log. *)
Definition is_glob_call (e : Event) : bool :=
  match e with
  | CallGlob _ => true
  | _ => false
  end.

(** The number of [ListObjects] calls in a log. *)
Definition is_ListObjects_call (e : Event) : bool :=
  match e with
  | CallListObjects _ => true
  | _ => false
  end.

(** * Facts about the string primitives *)

Section string_facts.

Implicit Types (s sub pre post : string) (a c : ascii).

Lemma append_nil_l s : "" +:+ s = s.
Proof. reflexivity. Qed.

Lemma append_cons a s1 s2 : String a s1 +:+ s2 = String a (s1 +:+ s2).
Proof. reflexivity. Qed.

Lemma append_assoc s1 s2 s3 : (s1 +:+ s2) +:+ s3 = s1 +:+ (s2 +:+ s3).
Proof.
  induction s1 as [|a s1 IH]; [done|]. rewrite !append_cons. by rewrite IH.
Qed.

Lemma append_nil_r s : s +:+ "" = s.
Proof. induction s as [|a s IH]; [done|]. rewrite append_cons. by rewrite IH. Qed.

Lemma length_append s1 s2 :
  String.length (s1 +:+ s2) = (String.length s1 + String.length s2)%nat.
Proof.
  induction s1 as [|a s1 IH]; [done|]. rewrite append_cons. simpl. by rewrite IH.
Qed.

Lemma prefix_true_iff sub s :
  String.prefix sub s = true <-> exists post, s = sub +:+ post.
Proof.
  revert sub. induction s as [|b s IH]; intros [|a sub]; simpl.
  - split; [by exists "" | done].
  - split; [done | by intros [post ?]].
  - split; [by eexists | done].
  - destruct (ascii_dec a b) as [->|Hne].
    + rewrite IH. split; intros [post Hp]; exists post.
      * rewrite append_cons. congruence.
      * rewrite append_cons in Hp. congruence.
    + split; [done | intros [post Hp]].
      rewrite append_cons in Hp. congruence.
Qed.

Lemma occurs_at_0 sub s : occurs_at sub s 0 <-> String.prefix sub s = true.
Proof.
  rewrite prefix_true_iff. split.
  - intros ([|a pre] & post & -> & Hlen); [by exists post | done].
  - intros [post ->]. by exists "", post.
Qed.

Lemma occurs_at_S sub a s i : occurs_at sub (String a s) (S i) <-> occurs_at sub s i.
Proof.
  split.
  - intros ([|b pre] & post & Heq & Hlen); [done|].
    rewrite append_cons in Heq. simpl in Hlen.
    exists pre, post. split; congruence.
  - intros (pre & post & -> & Hlen). exists (String a pre), post.
    rewrite append_cons. simpl. by rewrite Hlen.
Qed.

Lemma occurs_at_nil_S sub i : ~ occurs_at sub "" (S i).
Proof. by intros ([|b pre] & post & Heq & Hlen). Qed.

Lemma occurs_at_length sub s i :
  occurs_at sub s i -> (i + String.length sub <= String.length s)%nat.
Proof. intros (pre & post & -> & <-). rewrite !length_append. lia. Qed.

Lemma Index_unfold s sub :
  strings.Index s sub =
    if String.prefix sub s then 0
    else match s with
         | EmptyString => -1
         | String _ s' =>
             if strings.Index s' sub <? 0 then -1 else strings.Index s' sub + 1
         end.
Proof. by destruct s. Qed.

(** [Index] finds the first occurrence, or reports that there is none. *)
Lemma Index_spec s sub :
  (strings.Index s sub = -1 /\ forall j, ~ occurs_at sub s j)
  \/ (exists i, strings.Index s sub = Z.of_nat i /\ occurs_at sub s i
               /\ forall j, (j < i)%nat -> ~ occurs_at sub s j).
Proof.
  induction s as [|a s IH]; rewrite Index_unfold;
    destruct (String.prefix sub _) eqn:Hpre.
  - right. exists 0%nat. rewrite occurs_at_0. repeat split; [done | lia].
  - left. split; [done|]. intros [|j]; [|apply occurs_at_nil_S].
    rewrite occurs_at_0. congruence.
  - right. exists 0%nat. rewrite occurs_at_0. repeat split; [done | lia].
  - destruct IH as [[-> Hno] | (i & -> & Hocc & Hfirst)].
    + left. split; [done|]. intros [|j].
      * rewrite occurs_at_0. congruence.
      * rewrite occurs_at_S. apply Hno.
    + right. exists (S i).
      destruct (Z.ltb_spec (Z.of_nat i) 0) as [?|_]; [lia|].
      split; [lia|]. split; [by apply occurs_at_S|].
      intros [|j] Hj.
      * rewrite occurs_at_0. congruence.
      * rewrite occurs_at_S. apply Hfirst. lia.
Qed.

Lemma Index_range s sub : -1 <= strings.Index s sub <= Z.of_nat (String.length s).
Proof.
  destruct (Index_spec s sub) as [[-> _] | (i & -> & Hocc & _)]; [lia|].
  apply occurs_at_length in Hocc. lia.
Qed.

Lemma IndexByte_Index s c : strings.IndexByte s c = strings.Index s (String c "").
Proof.
  induction s as [|a s IH]; [done|].
  rewrite Index_unfold. simpl. rewrite <- IH.
  destruct (ascii_dec c a) as [->|Hne].
  - rewrite Ascii.eqb_refl. by destruct s.
  - destruct (Ascii.eqb_spec a c); [congruence | done].
Qed.

Lemma IndexByte_range s c : -1 <= strings.IndexByte s c <= Z.of_nat (String.length s).
Proof. rewrite IndexByte_Index. apply Index_range. Qed.

Lemma slice_to_length_prefix pre rest :
  slice_to (pre +:+ rest) (Z.of_nat (String.length pre)) = pre.
Proof.
  unfold slice_to. rewrite Nat2Z.id.
  induction pre as [|a pre IH]; simpl; [by destruct rest | by rewrite IH].
Qed.

(** A positive [Index] cuts [s] at the first occurrence of [sub]. *)
Lemma Index_positive_cut s sub :
  0 < strings.Index s sub ->
  exists post,
    s = slice_to s (strings.Index s sub) +:+ sub +:+ post
    /\ (0 < String.length (slice_to s (strings.Index s sub)))%nat
    /\ forall j, (j < String.length (slice_to s (strings.Index s sub)))%nat ->
                 ~ occurs_at sub s j.
Proof.
  intros Hpos.
  destruct (Index_spec s sub) as [[Heq _] | (i & Heq & (pre & post & -> & <-) & Hfirst)];
    [lia|].
  rewrite Heq in *. rewrite slice_to_length_prefix.
  exists post. split; [done|]. split; [lia | done].
Qed.

Lemma Index_nonpositive s sub :
  strings.Index s sub <= 0 -> forall j, (0 < j)%nat -> ~ occurs_at sub s j \/ occurs_at sub s 0.
Proof.
  intros Hle j Hj.
  destruct (Index_spec s sub) as [[_ Hno] | (i & Heq & Hocc & _)].
  - left. apply Hno.
  - right. by replace i with 0%nat in Hocc by lia.
Qed.

End string_facts.

Section naming_rule.

Implicit Types (p path sub pre post name : string).

Lemma trimLeftByte_no_lead s c t : strings.trimLeftByte s c <> String c t.
Proof.
  induction s as [|a s IH]; [done|]. simpl.
  destruct (Ascii.eqb_spec a c) as [->|Hne]; [done | congruence].
Qed.

Lemma trimLeftByte_slashes n p :
  (forall t, p <> String "/" t) -> strings.trimLeftByte (slashes n +:+ p) "/" = p.
Proof.
  intros Hp. induction n as [|n IH]; simpl.
  - rewrite append_nil_l. destruct p as [|a p]; [done|]. simpl.
    destruct (Ascii.eqb_spec a "/") as [->|_]; [by destruct (Hp p) | done].
  - done.
Qed.

Lemma trimLeftByte_decompose s :
  exists n, s = slashes n +:+ strings.trimLeftByte s "/".
Proof.
  induction s as [|a s [n IH]]; [by exists 0%nat|]. simpl.
  destruct (Ascii.eqb_spec a "/") as [->|Hne].
  - exists (S n). simpl. rewrite append_cons. by rewrite <- IH.
  - by exists 0%nat.
Qed.

Lemma Stripped_iff path p : Stripped path p <-> p = strings.TrimLeft path "/".
Proof.
  split.
  - intros [[n ->] Hp]. symmetry. by apply trimLeftByte_slashes.
  - intros ->. split; [apply trimLeftByte_decompose | apply trimLeftByte_no_lead].
Qed.

Lemma Stripped_TrimLeft path : Stripped path (strings.TrimLeft path "/").
Proof. by apply Stripped_iff. Qed.

Lemma append_inj_length pre1 pre2 s1 s2 :
  pre1 +:+ s1 = pre2 +:+ s2 -> String.length pre1 = String.length pre2 -> pre1 = pre2.
Proof.
  revert pre2. induction pre1 as [|a pre1 IH]; intros [|b pre2]; try done.
  rewrite !append_cons. simpl. intros [= -> Heq] [= Hlen].
  f_equal. by apply IH.
Qed.

Lemma prefix_before_first_functional sub p pre1 pre2 :
  prefix_before_first sub p pre1 -> prefix_before_first sub p pre2 -> pre1 = pre2.
Proof.
  intros [[post1 H1] F1] [[post2 H2] F2].
  assert (String.length pre1 = String.length pre2) as Hlen.
  { destruct (Nat.lt_trichotomy (String.length pre1) (String.length pre2))
      as [Hlt | [Heq | Hgt]]; [|done|].
    - destruct (F2 _ Hlt). by exists pre1, post1.
    - destruct (F1 _ Hgt). by exists pre2, post2. }
  apply (append_inj_length _ _ (sub +:+ post1) (sub +:+ post2)); congruence.
Qed.

Lemma Spec_Inferred_functional p r1 r2 :
  Spec_Inferred p r1 -> Spec_Inferred p r2 -> r1 = r2.
Proof.
  destruct 1; destruct 1; try done; f_equal;
    eauto using prefix_before_first_functional.
Qed.

Lemma Spec_InfersName_functional path r1 r2 :
  Spec_InfersName path r1 -> Spec_InfersName path r2 -> r1 = r2.
Proof.
  intros (p1 & ->%Stripped_iff & H1) (p2 & ->%Stripped_iff & H2).
  eapply Spec_Inferred_functional; eauto.
Qed.

(** On a stripped path an occurrence of a pattern that starts with ['/'] is
    never at position zero. *)
Lemma stripped_not_at_start sub p :
  (forall t, p <> String "/" t) -> ~ occurs_at (String "/" sub) p 0.
Proof.
  intros Hp ([|a pre] & post & Heq & Hlen); [|done].
  rewrite append_nil_l, append_cons in Heq. by destruct (Hp (sub +:+ post)).
Qed.

Lemma Index_nonpositive_stripped sub p :
  (forall t, p <> String "/" t) ->
  strings.Index p (String "/" sub) <= 0 ->
  ~ contains_after_start (String "/" sub) p.
Proof.
  intros Hp Hle (j & Hj & Hocc).
  destruct (Index_nonpositive _ _ Hle j Hj) as [Hno | H0]; [done|].
  by apply (stripped_not_at_start sub p).
Qed.

Lemma Index_positive_first sub p :
  0 < strings.Index p sub ->
  contains_after_start sub p
  /\ prefix_before_first sub p (slice_to p (strings.Index p sub)).
Proof.
  intros Hpos. destruct (Index_positive_cut _ _ Hpos) as (post & Heq & Hlen & Hfirst).
  split; [|split; [by exists post | done]].
  eexists. split; [exact Hlen|]. by eexists _, post.
Qed.

(** The loop body adds exactly the name that the rule infers. *)
Lemma storage_body_Spec_Inferred set o :
  exists r, Spec_Inferred (strings.TrimLeft (Path o) "/") r
            /\ storage_body set o = add_name r set.
Proof.
  unfold storage_body.
  pose proof (trimLeftByte_no_lead (Path o) "/") as Hp.
  change (strings.trimLeftByte (Path o) "/") with (strings.TrimLeft (Path o) "/") in Hp.
  set (p := strings.TrimLeft (Path o) "/") in *.
  destruct (decide (p = "")) as [Hempty | Hne].
  { exists None. split; [|done]. rewrite Hempty.
    apply Inferred_nothing; intros (j & Hj & Hocc);
      (destruct j; [lia | by apply occurs_at_nil_S in Hocc]). }
  destruct (Z.ltb_spec 0 (strings.Index p "/charts/")) as [Hpos | Hle].
  { destruct (Index_positive_first _ _ Hpos) as [Hc Hf].
    exists (Some (slice_to p (strings.Index p "/charts/"))).
    split; [by apply Inferred_charts|].
    destruct (decide _) as [_ | Hrepo]; [done|].
    destruct (Index_positive_cut _ _ Hpos) as (_ & _ & Hlen & _).
    apply dec_stable in Hrepo. rewrite Hrepo in Hlen. simpl in Hlen. lia. }
  pose proof (Index_nonpositive_stripped "charts/" p Hp Hle) as Hnc.
  rewrite IndexByte_Index.
  destruct (Z.ltb_spec 0 (strings.Index p "/")) as [Hpos | Hle'].
  - destruct (Index_positive_first _ _ Hpos) as [Hc Hf].
    eexists (Some _). split; [by apply Inferred_segment | done].
  - exists None. split; [|done]. apply Inferred_nothing; [done|].
    by apply (Index_nonpositive_stripped "" p).
Qed.

Lemma storage_body_Spec_InfersName set o r :
  Spec_InfersName (Path o) r -> storage_body set o = add_name r set.
Proof.
  intros Hr. destruct (storage_body_Spec_Inferred set o) as (r' & Hr' & ->).
  f_equal. eapply Spec_InfersName_functional; [|exact Hr].
  eexists. split; [apply Stripped_TrimLeft | done].
Qed.

Lemma Spec_InfersName_total path : exists r, Spec_InfersName path r.
Proof.
  destruct (storage_body_Spec_Inferred ∅ (mkObject path)) as (r & Hr & _).
  exists r, (strings.TrimLeft path "/"). split; [apply Stripped_TrimLeft | done].
Qed.

End naming_rule.

(** * Facts about sorting and about the iteration order of maps *)

Section sorting_facts.

Implicit Types (l names : list string) (X : gset string) (ord : MapOrder).

(** [String.le] is the lexicographic order on bytes. *)
Lemma String_le_nil s : String.le "" s.
Proof. by destruct s. Qed.

Lemma String_le_cons_nil a s : ~ String.le (String a s) "".
Proof. by intros H. Qed.

Lemma String_le_cons a s b t :
  String.le (String a s) (String b t)
  <-> (N_of_ascii a < N_of_ascii b)%N \/ (a = b /\ String.le s t).
Proof.
  unfold String.le, String.leb. simpl. unfold Ascii.compare.
  destruct (N.compare_spec (N_of_ascii a) (N_of_ascii b)) as [Heq | Hlt | Hgt].
  - assert (a = b) as ->
      by (rewrite <- (ascii_N_embedding a), Heq; apply ascii_N_embedding).
    split; [by right | intros [?|[_ ?]]; [lia | done]].
  - split; [by left | done].
  - split; [done | intros [?|[-> _]]; lia].
Qed.

Lemma sort_Strings_Sorted l : Sorted String.le (sort_Strings l).
Proof. apply (Sorted_merge_sort String.le). Qed.

Lemma sort_Strings_perm l : sort_Strings l ≡ₚ l.
Proof. apply (merge_sort_Permutation String.le). Qed.

Lemma sorted_keys_perm ord X : sorted_keys ord X ≡ₚ elements X.
Proof. unfold sorted_keys. by rewrite sort_Strings_perm, range_keys_perm. Qed.

Lemma sorted_keys_Sorted ord X : Sorted String.le (sorted_keys ord X).
Proof. apply sort_Strings_Sorted. Qed.

Lemma elem_of_sorted_keys ord X x : x ∈ sorted_keys ord X <-> x ∈ X.
Proof. rewrite sorted_keys_perm. apply elem_of_elements. Qed.

Lemma NoDup_sorted_keys ord X : NoDup (sorted_keys ord X).
Proof. rewrite sorted_keys_perm. apply NoDup_elements. Qed.

(** Whatever order the map was visited in, sorting yields the same slice. *)
Lemma sorted_keys_order_irrelevant ord1 ord2 X :
  sorted_keys ord1 X = sorted_keys ord2 X.
Proof.
  apply (Sorted_unique String.le); try apply sorted_keys_Sorted.
  by rewrite !sorted_keys_perm.
Qed.

Lemma sorted_keys_nil_iff ord X : sorted_keys ord X = [] <-> X = ∅.
Proof.
  split.
  - intros Hnil. apply set_eq. intros x.
    rewrite <- (elem_of_sorted_keys ord), Hnil. set_solver.
  - intros ->. apply Permutation_nil_r. by rewrite sorted_keys_perm, elements_empty.
Qed.

End sorting_facts.

(** * Facts about the log of calls *)

Lemma value_bind {A B} (m : IO A) (k : A -> IO B) :
  value (m ≫= k) = value (k (value m)).
Proof. reflexivity. Qed.

Lemma trace_bind {A B} (m : IO A) (k : A -> IO B) :
  trace (m ≫= k) = trace m ++ trace (k (value m)).
Proof. reflexivity. Qed.

Lemma local_only_nil : local_only [].
Proof. constructor. Qed.

Lemma local_only_cons e t : is_local_call e = true -> local_only t -> local_only (e :: t).
Proof. by constructor. Qed.

Lemma local_only_app t1 t2 : local_only t1 -> local_only t2 -> local_only (t1 ++ t2).
Proof. intros. by apply Forall_app. Qed.

Lemma local_only_elem_of t e : local_only t -> e ∈ t -> is_local_call e = true.
Proof. unfold local_only. rewrite Forall_forall. auto. Qed.

Lemma local_only_not_ListObjects t prefix :
  local_only t -> CallListObjects prefix ∉ t.
Proof. intros Hall Hin. by apply (local_only_elem_of _ _ Hall) in Hin. Qed.

Lemma local_only_not_other_Getenv t key :
  key <> "STORAGE_LOCAL_ROOTDIR" -> local_only t -> CallGetenv key ∉ t.
Proof.
  intros Hkey Hall Hin. apply (local_only_elem_of _ _ Hall) in Hin.
  simpl in Hin. by apply bool_decide_eq_true in Hin.
Qed.

Lemma for_range_trace {A S} (P : list Event -> Prop) (body : S -> A -> IO S) st xs :
  P [] -> (forall t1 t2, P t1 -> P t2 -> P (t1 ++ t2)) ->
  (forall st' x, P (trace (body st' x))) ->
  P (trace (for_range body st xs)).
Proof.
  intros Hnil Happ Hbody. revert st.
  induction xs as [|x xs IH]; intros st; simpl; [done|].
  by apply Happ.
Qed.

(** One step of showing that a computation only calls the operating system. *)
Ltac local_only_step :=
  match goal with
  | |- local_only [] => apply local_only_nil
  | |- local_only (_ :: _) => apply local_only_cons; [reflexivity|]
  | |- local_only (_ ++ _) => apply local_only_app
  | |- local_only (trace (mret _)) => apply local_only_nil
  | |- local_only (trace (_ ≫= _)) => rewrite trace_bind
  | |- local_only (trace (if ?b then _ else _)) => destruct b
  | |- local_only (trace (match ?x with _ => _ end)) => destruct x
  end.

Lemma glob_loop_local_only os repo set globs :
  local_only (trace (glob_loop os repo set globs)).
Proof.
  induction globs as [|g globs IH]; simpl; repeat local_only_step; exact IH.
Qed.

Lemma localFS_body_local_only os root set e :
  local_only (trace (localFS_body os root set e)).
Proof.
  unfold localFS_body. repeat local_only_step. apply glob_loop_local_only.
Qed.

Lemma discoverReposLocalFS_local_only ord os s :
  local_only (trace (discoverReposLocalFS ord os s)).
Proof.
  unfold discoverReposLocalFS.
  repeat (local_only_step; simpl).
  apply (for_range_trace local_only);
    auto using local_only_nil, local_only_app, localFS_body_local_only.
Qed.

(** * What the local-tree discoverer collects *)

Section local_tree.

Context (os : OS) (root : string).

Lemma len_positive {A} (l : list A) :
  (0 <? Z.of_nat (length l)) = if decide (l <> []) then true else false.
Proof. by destruct l. Qed.

Lemma glob_loop_value repo set globs :
  value (glob_loop os repo set globs)
  = if decide (Exists (matches_some os) globs) then {[repo]} ∪ set else set.
Proof.
  induction globs as [|g globs IH]; simpl; [done|].
  destruct (Glob os g) as [matches e] eqn:Hg.
  assert (matches_some os g <-> matches <> []) as Hms
    by (unfold matches_some; by rewrite Hg).
  destruct matches as [|m ms]; simpl.
  - rewrite IH. apply decide_ext. rewrite Exists_cons. tauto.
  - rewrite decide_True; [done|]. apply Exists_cons_hd. by apply Hms.
Qed.

Lemma localFS_body_value set e :
  value (localFS_body os root set e)
  = if decide (IsDir e = true /\ has_archive os root (Name e))
    then {[Name e]} ∪ set else set.
Proof.
  unfold localFS_body. destruct (IsDir e); cbn [negb].
  - rewrite glob_loop_value. apply decide_ext.
    unfold has_archive. rewrite !Exists_cons, Exists_nil. tauto.
  - rewrite decide_False; [done|]. by intros [? _].
Qed.

Lemma for_range_localFS_elem entries set d :
  d ∈ value (for_range (localFS_body os root) set entries)
  <-> d ∈ set
      \/ exists e, e ∈ entries /\ IsDir e = true /\ Name e = d /\ has_archive os root d.
Proof.
  revert set. induction entries as [|e entries IH]; intros set; simpl.
  - split; [by left | intros [?|(e & He & _)]; [done | by apply elem_of_nil in He]].
  - rewrite IH, localFS_body_value. case_decide as Hq; [destruct Hq as [Hdir Harch]|].
    + rewrite elem_of_union, elem_of_singleton. split.
      * intros [[->|?] | (e' & He' & ?)]; [right; exists e | by left | right; exists e'];
          rewrite ?elem_of_cons; naive_solver.
      * intros [? | (e' & [->|He']%elem_of_cons & ? & <- & ?)]; eauto 10.
    + split.
      * intros [? | (e' & He' & ?)]; [by left | right; exists e'].
        rewrite elem_of_cons. naive_solver.
      * intros [? | (e' & [->|He']%elem_of_cons & ? & <- & ?)]; eauto 10.
        by destruct Hq.
Qed.

Lemma elem_of_qualifying entries d :
  d ∈ qualifying os root entries
  <-> exists e, e ∈ entries /\ IsDir e = true /\ Name e = d /\ has_archive os root d.
Proof. unfold qualifying. rewrite for_range_localFS_elem. set_solver. Qed.

End local_tree.

(** The result of [discoverReposLocalFS], call by call. *)
Lemma discoverReposLocalFS_value ord os s :
  value (discoverReposLocalFS ord os s) =
    let root := Getenv os "STORAGE_LOCAL_ROOTDIR" in
    if decide (root = "") then ([], false)
    else match Stat os root with
         | inr _ => ([], false)
         | inl fi =>
             if negb (FileInfo_IsDir fi) then ([], false)
             else match ReadDir os root with
                  | (_, Some _) => ([], false)
                  | (entries, None) =>
                      let set := qualifying os root entries in
                      if decide (size set = 0%nat) then ([], false)
                      else (sorted_keys ord set, true)
                  end
         end.
Proof.
  unfold discoverReposLocalFS, qualifying. simpl.
  repeat first [ done | case_decide | case_match; simplify_eq/= ].
Qed.

(** * What the generic object discoverer collects *)

Lemma elem_of_add_name r set name :
  name ∈ add_name r set <-> r = Some name \/ name ∈ set.
Proof. destruct r as [n|]; simpl; set_solver. Qed.

Lemma elem_of_foldl_storage_body objs set name :
  name ∈ foldl storage_body set objs
  <-> name ∈ set \/ exists o, o ∈ objs /\ Spec_InfersName (Path o) (Some name).
Proof.
  revert set. induction objs as [|o objs IH]; intros set; simpl.
  - split; [by left | intros [?|(o & Ho & _)]; [done | by apply elem_of_nil in Ho]].
  - destruct (Spec_InfersName_total (Path o)) as [r Hr].
    rewrite IH, (storage_body_Spec_InfersName set o r Hr), elem_of_add_name.
    split.
    + intros [[-> | ?] | (o' & Ho' & ?)]; [right; exists o | by left | right; exists o'];
        (split; [rewrite elem_of_cons; by auto | done]).
    + intros [? | (o' & [->|Ho']%elem_of_cons & Hn)]; [by auto | | by eauto].
      left. left. eapply Spec_InfersName_functional; eauto.
Qed.

(** The result and the log of [discoverReposFromStorage]. *)
Lemma discoverReposFromStorage_run ord s prefix :
  discoverReposFromStorage ord s prefix =
    match ListObjects (StorageBackend s) prefix with
    | (_, Some err) => mkIO ([], Some err) [CallListObjects prefix]
    | (objs, None) =>
        mkIO (sorted_keys ord (foldl storage_body ∅ objs), None) [CallListObjects prefix]
    end.
Proof.
  unfold discoverReposFromStorage, backend_ListObjects, call, mbind, IO_bind. simpl.
  by destruct (ListObjects _ _) as [objs [err|]].
Qed.

Lemma discoverReposFromStorage_trace ord s prefix :
  trace (discoverReposFromStorage ord s prefix) = [CallListObjects prefix].
Proof.
  rewrite discoverReposFromStorage_run. by destruct (ListObjects _ _) as [objs [err|]].
Qed.

(** * The handler, in terms of the two discoverers *)

Lemma handler_value ord os s :
  value (listRepositoriesHandler ord os s) =
    match value (discoverReposLocalFS ord os s) with
    | (names, true) => JSON http.StatusOK (Strings names)
    | (_, false) => respond_generic (value (discoverReposFromStorage ord s ""))
    end.
Proof.
  unfold listRepositoriesHandler, listRepositoriesHandler_gated. cbn [allowListRepos negb].
  rewrite value_bind. destruct (value (discoverReposLocalFS ord os s)) as [names [|]]; [done|].
  rewrite value_bind. by destruct (value (discoverReposFromStorage ord s "")) as [names' [err|]].
Qed.

Lemma handler_trace ord os s :
  trace (listRepositoriesHandler ord os s) =
    trace (discoverReposLocalFS ord os s)
    ++ (if (value (discoverReposLocalFS ord os s)).2 then []
        else trace (discoverReposFromStorage ord s "")).
Proof.
  unfold listRepositoriesHandler, listRepositoriesHandler_gated. cbn [allowListRepos negb].
  rewrite trace_bind. f_equal.
  destruct (value (discoverReposLocalFS ord os s)) as [names [|]]; [done|].
  rewrite trace_bind. cbn [snd].
  destruct (value (discoverReposFromStorage ord s "")) as [names' [err|]];
    simpl; by rewrite app_nil_r.
Qed.

(** * The properties of the specification *)

(** Evaluating the loop body on a concrete path. *)
Lemma storage_body_adds path name :
  (let p := strings.TrimLeft path "/" in
   if decide (p = "") then None
   else if 0 <? strings.Index p "/charts/"
        then Some (slice_to p (strings.Index p "/charts/"))
        else if 0 <? strings.IndexByte p "/"
             then Some (slice_to p (strings.IndexByte p "/")) else None)
  = name ->
  forall set, storage_body set (mkObject path) = add_name name set.
Proof.
  intros <- set. unfold storage_body. cbn [Path].
  repeat first [ done | case_decide | case_match ].
  match goal with
  | Hpos : (0 <? _) = true, Hrepo : slice_to _ _ = "" |- _ =>
      apply Z.ltb_lt in Hpos;
      destruct (Index_positive_cut _ _ Hpos) as (_ & _ & Hlen & _);
      rewrite Hrepo in Hlen; simpl in Hlen; lia
  end.
Qed.

Lemma Spec_InfersName_by_run path name :
  (forall set, storage_body set (mkObject path) = add_name name set) ->
  Spec_InfersName path name.
Proof.
  intros Hrun. destruct (Spec_InfersName_total path) as [r Hr].
  pose proof (storage_body_Spec_InfersName ∅ (mkObject path) r Hr) as Hr'.
  rewrite Hrun in Hr'. replace name with r; [done|].
  assert (forall x, x ∈ add_name name ∅ <-> x ∈ add_name r ∅) as Hiff
    by (intros x; by rewrite Hr').
  setoid_rewrite elem_of_add_name in Hiff.
  destruct r as [n|].
  - destruct (proj2 (Hiff n)) as [->|Hn]; [by left | done | by apply not_elem_of_empty in Hn].
  - destruct name as [m|]; [|done].
    destruct (proj1 (Hiff m)) as [?|Hm]; [by left | done | by apply not_elem_of_empty in Hm].
Qed.

(** C1.  When the listing succeeds, the generic object discoverer adds, for
    each stored object, exactly the name the naming rule infers from its path
    (leading slashes stripped; the prefix before ["/charts/"] found at a
    position greater than zero; otherwise the first ['/']-delimited segment
    when a ['/'] is found at a position greater than zero; otherwise nothing),
    and its result consists of the names so inferred.  In particular
    ["repoA/charts/webapp-0.1.0.tgz"] yields ["repoA"],
    ["repoB/webapp-0.2.0.tgz"] yields ["repoB"] and ["justafile.tgz"] yields
    no name. *)
Theorem generic_discoverer_infers_names ord s prefix objs :
  ListObjects (StorageBackend s) prefix = (objs, None) ->
  (forall set o, o ∈ objs ->
     exists r, Spec_InfersName (Path o) r /\ storage_body set o = add_name r set)
  /\ (forall name,
        name ∈ (value (discoverReposFromStorage ord s prefix)).1
        <-> exists o, o ∈ objs /\ Spec_InfersName (Path o) (Some name))
  /\ (Spec_InfersName "repoA/charts/webapp-0.1.0.tgz" (Some "repoA")
      /\ forall set, storage_body set (mkObject "repoA/charts/webapp-0.1.0.tgz")
                     = {["repoA"]} ∪ set)
  /\ (Spec_InfersName "repoB/webapp-0.2.0.tgz" (Some "repoB")
      /\ forall set, storage_body set (mkObject "repoB/webapp-0.2.0.tgz")
                     = {["repoB"]} ∪ set)
  /\ (Spec_InfersName "justafile.tgz" None
      /\ forall set, storage_body set (mkObject "justafile.tgz") = set).
Proof.
  intros Hlist. split; [|split].
  - intros set o _. destruct (Spec_InfersName_total (Path o)) as [r Hr].
    exists r. split; [done | by apply storage_body_Spec_InfersName].
  - intros name. rewrite discoverReposFromStorage_run, Hlist. cbn [value fst].
    rewrite elem_of_sorted_keys, elem_of_foldl_storage_body. set_solver.
  - pose proof (storage_body_adds "repoA/charts/webapp-0.1.0.tgz" (Some "repoA") eq_refl) as HA.
    pose proof (storage_body_adds "repoB/webapp-0.2.0.tgz" (Some "repoB") eq_refl) as HB.
    pose proof (storage_body_adds "justafile.tgz" None eq_refl) as HC.
    split; [split; [apply Spec_InfersName_by_run; exact HA | exact HA]|].
    split; [split; [apply Spec_InfersName_by_run; exact HB | exact HB]|].
    split; [apply Spec_InfersName_by_run; exact HC | exact HC].
Qed.

Lemma generic_discoverer_infers_names_witness :
  "t1" ∈ (value (discoverReposFromStorage ord_reverse server_three_objects "")).1
  <-> exists o, o ∈ [mkObject "t1/charts/a.tgz"; mkObject "t2/b.tgz"; mkObject "noslash"]
                /\ Spec_InfersName (Path o) (Some "t1").
Proof.
  apply (generic_discoverer_infers_names ord_reverse server_three_objects "" _ eq_refl).
Defined.

(** The names returned by the local-tree discoverer are those of
    [qualifying], whenever the root could be enumerated. *)
Lemma discoverReposLocalFS_enumerated ord os s root fi entries :
  Getenv os "STORAGE_LOCAL_ROOTDIR" = root -> root <> "" ->
  Stat os root = inl fi -> FileInfo_IsDir fi = true ->
  ReadDir os root = (entries, None) ->
  value (discoverReposLocalFS ord os s)
  = if decide (size (qualifying os root entries) = 0%nat) then ([], false)
    else (sorted_keys ord (qualifying os root entries), true).
Proof.
  intros Hroot Hne Hstat Hdir Hread.
  rewrite discoverReposLocalFS_value. cbn zeta.
  rewrite Hroot, decide_False by done. by rewrite Hstat, Hdir, Hread.
Qed.

Lemma elem_of_local_names ord os s root fi entries d :
  Getenv os "STORAGE_LOCAL_ROOTDIR" = root -> root <> "" ->
  Stat os root = inl fi -> FileInfo_IsDir fi = true ->
  ReadDir os root = (entries, None) ->
  d ∈ (value (discoverReposLocalFS ord os s)).1 <-> d ∈ qualifying os root entries.
Proof.
  intros Hroot Hne Hstat Hdir Hread.
  rewrite (discoverReposLocalFS_enumerated ord os s root fi entries) by done.
  case_decide as Hsize; cbn [fst].
  - apply size_empty_inv in Hsize. set_solver.
  - apply elem_of_sorted_keys.
Qed.

Lemma NoDup_local_names ord os s : NoDup (value (discoverReposLocalFS ord os s)).1.
Proof.
  rewrite discoverReposLocalFS_value. cbn zeta.
  repeat first [ apply NoDup_nil_2 | apply NoDup_sorted_keys
               | case_decide | case_match; cbn [fst] ].
Qed.

Lemma Sorted_local_names ord os s :
  Sorted String.le (value (discoverReposLocalFS ord os s)).1.
Proof.
  rewrite discoverReposLocalFS_value. cbn zeta.
  repeat first [ apply Sorted_nil | apply sorted_keys_Sorted
               | case_decide | case_match; cbn [fst] ].
Qed.

Lemma elem_of_generic_names ord s prefix name :
  name ∈ (value (discoverReposFromStorage ord s prefix)).1 ->
  exists o, o ∈ (ListObjects (StorageBackend s) prefix).1
            /\ Spec_InfersName (Path o) (Some name).
Proof.
  rewrite discoverReposFromStorage_run.
  destruct (ListObjects _ _) as [objs [err|]]; cbn [value fst].
  - by intros ?%elem_of_nil.
  - rewrite elem_of_sorted_keys, elem_of_foldl_storage_body.
    intros [?%not_elem_of_empty | ?]; done.
Qed.

(** In terms of what [filepath.Glob] answers: when the local root is a
    directory that could be enumerated, a child directory [d] appears exactly
    once in the local-tree discoverer's result if [Glob] returns a match for
    the pattern [<root>/d/charts/*.tgz] or [<root>/d/*.tgz], and is absent
    otherwise.  Every name in the result of either discoverer comes from a
    directory entry with such a match, respectively from a stored object
    whose path yields it. *)
Lemma local_tree_lists_directories_by_glob ord os s root fi entries d :
  Getenv os "STORAGE_LOCAL_ROOTDIR" = root -> root <> "" ->
  Stat os root = inl fi -> FileInfo_IsDir fi = true ->
  ReadDir os root = (entries, None) ->
  (exists e, e ∈ entries /\ IsDir e = true /\ Name e = d) ->
  (has_archive os root d ->
     (value (discoverReposLocalFS ord os s)).2 = true
     /\ count_occ String.eq_dec (value (discoverReposLocalFS ord os s)).1 d = 1%nat)
  /\ (~ has_archive os root d -> d ∉ (value (discoverReposLocalFS ord os s)).1)
  /\ (forall n, n ∈ (value (discoverReposLocalFS ord os s)).1 ->
        exists e, e ∈ entries /\ IsDir e = true /\ Name e = n /\ has_archive os root n)
  /\ (forall ord' s' prefix n,
        n ∈ (value (discoverReposFromStorage ord' s' prefix)).1 ->
        exists o, o ∈ (ListObjects (StorageBackend s') prefix).1
                  /\ Spec_InfersName (Path o) (Some n)).
Proof.
  intros Hroot Hne Hstat Hdir Hread (e & He & Hed & Hen).
  pose proof (elem_of_local_names ord os s root fi entries) as Hmem.
  split; [|split; [|split]].
  - intros Harch.
    assert (d ∈ qualifying os root entries) as Hq
      by (apply elem_of_qualifying; eauto 10).
    split.
    + rewrite (discoverReposLocalFS_enumerated ord os s root fi entries) by done.
      case_decide as Hsize; [|done].
      apply size_empty_inv in Hsize. set_solver.
    + apply NoDup_count_occ'; [apply NoDup_ListNoDup, NoDup_local_names|].
      apply list_elem_of_In. by apply Hmem.
  - intros Hno Hin. apply Hmem in Hin; [|done..].
    apply elem_of_qualifying in Hin as (? & ? & ? & ? & ?). done.
  - intros n Hin. apply Hmem in Hin; [|done..]. by apply elem_of_qualifying.
  - intros ord' s' prefix n. apply elem_of_generic_names.
Qed.

Lemma discoverReposLocalFS_value_ord ord1 ord2 os s :
  value (discoverReposLocalFS ord1 os s) = value (discoverReposLocalFS ord2 os s).
Proof.
  rewrite !discoverReposLocalFS_value. cbn zeta.
  case_decide; [done|]. destruct (Stat os _) as [fi|]; [|done].
  destruct (negb _); [done|]. destruct (ReadDir os _) as [entries [e|]]; [done|].
  cbn zeta. case_decide; [done|].
  by rewrite (sorted_keys_order_irrelevant ord1 ord2).
Qed.

(** C2.  The local-tree discoverer hands the name of a child directory to
    [filepath.Glob] as part of a pattern, so a name with pattern characters is
    not judged by what the directory contains.  Under the root [/charts],
    the empty directory [a*] is listed, because the pattern [a*] also matches
    its sibling [ab], which has [x.tgz]; and the directory [[x]], which has
    [y.tgz], is not listed, because the pattern [[x]] matches the name [x]
    only.  In both trees the name is an immediate child directory of the
    root. *)
Theorem local_tree_reads_directory_names_as_patterns ord s :
  (mkDirEntry "a*" true ∈ (ReadDir os_star_tree "/charts").1
   /\ ~ contains_archive os_star_tree "/charts" "a*"
   /\ value (discoverReposLocalFS ord os_star_tree s) = (["a*"; "ab"], true))
  /\ (mkDirEntry "[x]" true ∈ (ReadDir os_class_tree "/charts").1
      /\ contains_archive os_class_tree "/charts" "[x]"
      /\ value (discoverReposLocalFS ord os_class_tree s) = ([], false)).
Proof.
  split; (split; [vm_compute; apply list_elem_of_here|]); split.
  - intros [Hc | Hc]; vm_compute in Hc; by apply Exists_nil in Hc.
  - rewrite (discoverReposLocalFS_value_ord ord ord_elements). by vm_compute.
  - right. apply Exists_exists. exists (mkDirEntry "y.tgz" false).
    split; [vm_compute; apply list_elem_of_here | by vm_compute].
  - rewrite (discoverReposLocalFS_value_ord ord ord_elements). by vm_compute.
Qed.

(** C3.  When the local-tree discoverer is applicable, the handler answers
    200 with that discoverer's sorted names, and [ListObjects] is not called
    during the request. *)
Theorem handler_short_circuits_on_local_result ord os s names :
  value (discoverReposLocalFS ord os s) = (names, true) ->
  value (listRepositoriesHandler ord os s) = JSON http.StatusOK (Strings names)
  /\ Sorted String.le names
  /\ (forall prefix, CallListObjects prefix ∉ trace (listRepositoriesHandler ord os s))
  /\ trace (listRepositoriesHandler ord os s) = trace (discoverReposLocalFS ord os s).
Proof.
  intros Hlocal.
  pose proof (Sorted_local_names ord os s) as Hsorted.
  pose proof (handler_trace ord os s) as Htrace.
  rewrite Hlocal in Hsorted, Htrace. cbn [fst snd] in *. rewrite app_nil_r in Htrace.
  repeat split; [| done | | done].
  - by rewrite handler_value, Hlocal.
  - intros prefix. rewrite Htrace.
    apply local_only_not_ListObjects, discoverReposLocalFS_local_only.
Qed.

Lemma handler_short_circuits_on_local_result_witness :
  value (listRepositoriesHandler ord_reverse os_two_repos server_failing)
  = JSON http.StatusOK (Strings ["repoA"; "repoB"])
  /\ CallListObjects "" ∉ trace (listRepositoriesHandler ord_reverse os_two_repos server_failing).
Proof.
  destruct (handler_short_circuits_on_local_result ord_reverse os_two_repos
              server_failing ["repoA"; "repoB"]) as (Hv & _ & Ht & _).
  - by vm_compute.
  - split; [exact Hv | apply Ht].
Defined.

Lemma qualifying_empty os root entries :
  (forall e, e ∈ entries -> IsDir e = true -> ~ has_archive os root (Name e)) ->
  qualifying os root entries = ∅.
Proof.
  intros Hnone. apply set_eq. intros d. rewrite elem_of_qualifying.
  split; [|by intros ?%not_elem_of_empty].
  intros (e & He & Hdir & <- & Harch). by destruct (Hnone e).
Qed.

Lemma local_inapplicable_value ord os s :
  local_inapplicable os -> value (discoverReposLocalFS ord os s) = ([], false).
Proof.
  unfold local_inapplicable. cbn zeta. intros Hin.
  rewrite discoverReposLocalFS_value. cbn zeta.
  case_decide as Hroot; [done|].
  destruct Hin as [? | [[err Herr] | [(fi & Hfi & Hnd) | [[err Herr] | Hnone]]]];
    [done | by rewrite Herr | by rewrite Hfi, Hnd | |].
  - destruct (Stat os _) as [fi|]; [|done]. destruct (negb _); [done|].
    destruct (ReadDir os _) as [entries e]. cbn [snd] in Herr. by rewrite Herr.
  - destruct (Stat os _) as [fi|]; [|done]. destruct (negb _); [done|].
    destruct (ReadDir os _) as [entries [e|]]; [done|]. cbn [fst] in Hnone.
    rewrite (qualifying_empty _ _ _ Hnone). by rewrite decide_True.
Qed.

(** Conversely, these are the only reasons for the discoverer to give up. *)
Lemma local_inapplicable_iff ord os s :
  (value (discoverReposLocalFS ord os s)).2 = false <-> local_inapplicable os.
Proof.
  split; [|by intros ->%(local_inapplicable_value ord os s)].
  rewrite discoverReposLocalFS_value. unfold local_inapplicable. cbn zeta.
  case_decide as Hroot; [by left|].
  destruct (Stat os _) as [fi|err]; [|by right; left; exists err].
  destruct (FileInfo_IsDir fi) eqn:Hdir; cbn [negb];
    [|by right; right; left; exists fi].
  destruct (ReadDir os _) as [entries [err|]];
    [by right; right; right; left; exists err|].
  case_decide as Hsize; [|done]. intros _. do 4 right.
  intros e He Hd Harch. apply size_empty_inv in Hsize.
  apply (not_elem_of_empty (C:=gset string) (Name e)). rewrite <- Hsize.
  apply elem_of_qualifying. by exists e.
Qed.

(** C4.  When no root is configured, or the root does not exist or is not a
    directory, or its enumeration fails, or no child directory qualifies, the
    local-tree discoverer reports that it is not applicable (it has no error
    to report) and the handler answers with what the generic object
    discoverer, called with the empty prefix, returns: its names with 200 or
    its error with 500. *)
Theorem handler_falls_back_to_generic ord os s :
  local_inapplicable os ->
  value (discoverReposLocalFS ord os s) = ([], false)
  /\ value (listRepositoriesHandler ord os s)
     = match value (discoverReposFromStorage ord s "") with
       | (_, Some err) => JSON http.StatusInternalServerError (H [("error", Error err)])
       | (names, None) => JSON http.StatusOK (Strings names)
       end
  /\ trace (listRepositoriesHandler ord os s)
     = trace (discoverReposLocalFS ord os s) ++ [CallListObjects ""].
Proof.
  intros Hin. pose proof (local_inapplicable_value ord os s Hin) as Hlocal.
  split; [done|]. split.
  - by rewrite handler_value, Hlocal.
  - by rewrite handler_trace, Hlocal, discoverReposFromStorage_trace.
Qed.

Lemma handler_falls_back_to_generic_witness :
  value (listRepositoriesHandler ord_elements os_unset server_three_objects)
  = JSON http.StatusOK (Strings ["t1"; "t2"]).
Proof.
  destruct (handler_falls_back_to_generic ord_elements os_unset server_three_objects)
    as (_ & Hv & _).
  - left. reflexivity.
  - rewrite Hv. by vm_compute.
Defined.

(** C5.  An error returned by [ListObjects] is returned unchanged by the
    generic object discoverer, with no names and after that single call; when
    the handler reaches the generic discoverer it answers 500 with the
    error's message. *)
Theorem listing_error_is_propagated ord os s prefix objs err :
  ListObjects (StorageBackend s) prefix = (objs, Some err) ->
  discoverReposFromStorage ord s prefix = mkIO ([], Some err) [CallListObjects prefix]
  /\ (prefix = "" ->
      (value (discoverReposLocalFS ord os s)).2 = false ->
      value (listRepositoriesHandler ord os s)
      = JSON http.StatusInternalServerError (H [("error", Error err)])
      /\ trace (listRepositoriesHandler ord os s)
         = trace (discoverReposLocalFS ord os s) ++ [CallListObjects ""]).
Proof.
  intros Hlist.
  assert (discoverReposFromStorage ord s prefix
          = mkIO ([], Some err) [CallListObjects prefix]) as Hrun
    by (by rewrite discoverReposFromStorage_run, Hlist).
  split; [done|]. intros -> Hlocal. split.
  - rewrite handler_value, Hrun.
    by destruct (value (discoverReposLocalFS ord os s)) as [names []].
  - by rewrite handler_trace, Hlocal, Hrun.
Qed.

Lemma listing_error_is_propagated_witness :
  value (listRepositoriesHandler ord_elements os_unset server_failing)
  = JSON http.StatusInternalServerError (H [("error", "backend unreachable")]).
Proof.
  destruct (listing_error_is_propagated ord_elements os_unset server_failing ""
              [] (mkError "backend unreachable")) as [_ Hh].
  - reflexivity.
  - apply Hh; reflexivity.
Defined.

(** C6.  When the access gate denies, the handler answers 403 with the body
    [{"error": "listing repositories is disabled"}] and calls neither the
    operating system nor the storage backend. *)
Theorem denied_request_does_no_discovery gate ord os s :
  gate s = false ->
  listRepositoriesHandler_gated gate ord os s
  = mkIO (JSON http.StatusForbidden (H [("error", "listing repositories is disabled")])) [].
Proof.
  intros Hdeny. unfold listRepositoriesHandler_gated. by rewrite Hdeny.
Qed.

Lemma denied_request_does_no_discovery_witness :
  listRepositoriesHandler_gated (fun _ => false) ord_elements os_two_repos server_three_objects
  = mkIO (JSON 403 (H [("error", "listing repositories is disabled")])) [].
Proof.
  apply (denied_request_does_no_discovery (fun _ => false)). reflexivity.
Defined.

Lemma Sorted_generic_names ord s prefix :
  Sorted String.le (value (discoverReposFromStorage ord s prefix)).1.
Proof.
  rewrite discoverReposFromStorage_run.
  destruct (ListObjects _ _) as [objs [err|]]; cbn [value fst];
    [apply Sorted_nil | apply sorted_keys_Sorted].
Qed.

Lemma NoDup_generic_names ord s prefix :
  NoDup (value (discoverReposFromStorage ord s prefix)).1.
Proof.
  rewrite discoverReposFromStorage_run.
  destruct (ListObjects _ _) as [objs [err|]]; cbn [value fst];
    [apply NoDup_nil_2 | apply NoDup_sorted_keys].
Qed.

(** C7.  The names returned by either discoverer are in lexicographic order
    and pairwise distinct, for every environment, backend and iteration
    order of the map. *)
Theorem discovery_results_sorted_and_distinct ord os s prefix :
  (Sorted String.le (value (discoverReposLocalFS ord os s)).1
   /\ NoDup (value (discoverReposLocalFS ord os s)).1)
  /\ (Sorted String.le (value (discoverReposFromStorage ord s prefix)).1
      /\ NoDup (value (discoverReposFromStorage ord s prefix)).1).
Proof.
  auto using Sorted_local_names, NoDup_local_names,
    Sorted_generic_names, NoDup_generic_names.
Qed.

(** The calls made by [discoverReposLocalFS], in order. *)
Lemma discoverReposLocalFS_trace ord os s :
  trace (discoverReposLocalFS ord os s) =
    let root := Getenv os "STORAGE_LOCAL_ROOTDIR" in
    CallGetenv "STORAGE_LOCAL_ROOTDIR" ::
    if decide (root = "") then []
    else CallStat root ::
         match Stat os root with
         | inr _ => []
         | inl fi =>
             if negb (FileInfo_IsDir fi) then []
             else CallReadDir root ::
                  match ReadDir os root with
                  | (_, Some _) => []
                  | (entries, None) => trace (for_range (localFS_body os root) ∅ entries)
                  end
         end.
Proof.
  unfold discoverReposLocalFS. simpl. f_equal.
  case_decide; [done|]. simpl. f_equal.
  destruct (Stat os _) as [fi|]; [|done]. destruct (negb _); [done|]. simpl. f_equal.
  destruct (ReadDir os _) as [entries [e|]]; [done|]. simpl.
  case_decide; simpl; by rewrite app_nil_r.
Qed.

Lemma IO_eq {A} (m1 m2 : IO A) :
  value m1 = value m2 -> trace m1 = trace m2 -> m1 = m2.
Proof. destruct m1, m2. simpl. by intros -> ->. Qed.

(** C8.  Against the same environment and the same backend, two runs of a
    discoverer return the same result and make the same calls, whatever
    order each run visits the keys of its map in. *)
Theorem discovery_is_deterministic ord1 ord2 os s prefix :
  discoverReposLocalFS ord1 os s = discoverReposLocalFS ord2 os s
  /\ discoverReposFromStorage ord1 s prefix = discoverReposFromStorage ord2 s prefix.
Proof.
  split.
  - apply IO_eq; [|by rewrite !discoverReposLocalFS_trace].
    rewrite !discoverReposLocalFS_value. cbn zeta.
    case_decide; [done|]. destruct (Stat os _) as [fi|]; [|done].
    destruct (negb _); [done|]. destruct (ReadDir os _) as [entries [e|]]; [done|].
    cbn zeta. case_decide; [done|].
    by rewrite (sorted_keys_order_irrelevant ord1 ord2).
  - rewrite !discoverReposFromStorage_run.
    destruct (ListObjects _ _) as [objs [err|]]; [done|].
    by rewrite (sorted_keys_order_irrelevant ord1 ord2).
Qed.

(** C9.  [allowListRepos] is constantly true: the handler never answers 403,
    it always starts discovery by reading [STORAGE_LOCAL_ROOTDIR], and it
    reads no other variable of the environment, [ENABLE_LIST_REPOS]
    included. *)
Theorem access_gate_always_allows ord os s :
  allowListRepos s = true
  /\ status (value (listRepositoriesHandler ord os s)) <> http.StatusForbidden
  /\ (exists rest, trace (listRepositoriesHandler ord os s)
                   = CallGetenv "STORAGE_LOCAL_ROOTDIR" :: rest)
  /\ CallGetenv "ENABLE_LIST_REPOS" ∉ trace (listRepositoriesHandler ord os s).
Proof.
  split; [done|]. split; [|split].
  - rewrite handler_value.
    destruct (value (discoverReposLocalFS ord os s)) as [names [|]]; [done|].
    by destruct (value (discoverReposFromStorage ord s "")) as [names' [err|]].
  - rewrite handler_trace, discoverReposLocalFS_trace. cbn zeta. by eexists.
  - rewrite handler_trace, elem_of_app. intros [Hin | Hin].
    + revert Hin. apply local_only_not_other_Getenv; [done|].
      apply discoverReposLocalFS_local_only.
    + destruct (value (discoverReposLocalFS ord os s)).2;
        [by apply elem_of_nil in Hin|].
      rewrite discoverReposFromStorage_trace in Hin.
      by apply list_elem_of_singleton in Hin.
Qed.

(** The shape of a name inferred by the naming rule from a stripped path. *)
Lemma Spec_Inferred_name_shape p name :
  (forall t, p <> String "/" t) ->
  Spec_Inferred p (Some name) ->
  name <> ""
  /\ (forall t, name <> String "/" t)
  /\ (forall pre post, name <> pre +:+ "/charts/" +:+ post).
Proof.
  intros Hp Hinf.
  assert (forall sub, prefix_before_first (String "/" sub) p name ->
            name <> ""
            /\ (forall t, name <> String "/" t)
            /\ (forall pre post, name <> pre +:+ String "/" sub +:+ post)) as Hshape.
  { intros sub [[post Heq] Hfirst].
    assert (name <> "") as Hne.
    { intros ->. destruct (Hp (sub +:+ post)). by rewrite Heq. }
    split; [done|]. split.
    - intros t ->. destruct (Hp (t +:+ String "/" sub +:+ post)).
      by rewrite Heq, append_cons.
    - intros pre' post' ->. apply (Hfirst (String.length pre')).
      + rewrite length_append. simpl. lia.
      + exists pre', (post' +:+ String "/" sub +:+ post).
        split; [|done]. by rewrite Heq, !append_assoc. }
  inversion Hinf as [pre _ Hfirst | seg _ _ Hfirst | ]; subst.
  - by apply Hshape.
  - destruct (Hshape "" Hfirst) as (Hne & Hlead & Hnoslash).
    split; [done|]. split; [done|].
    intros pre post ->. by apply (Hnoslash pre ("charts/" +:+ post)).
Qed.

(** C10.  Every name returned by the generic object discoverer is non-empty,
    does not start with ['/'] and does not contain ["/charts/"]. *)
Theorem generic_names_well_formed ord s prefix name :
  name ∈ (value (discoverReposFromStorage ord s prefix)).1 ->
  name <> ""
  /\ (forall t, name <> String "/" t)
  /\ (forall pre post, name <> pre +:+ "/charts/" +:+ post).
Proof.
  intros (o & _ & p & [_ Hp] & Hinf)%elem_of_generic_names.
  by apply (Spec_Inferred_name_shape p).
Qed.

Lemma generic_names_well_formed_witness :
  "t1" <> ""
  /\ (forall t, "t1" <> String "/" t)
  /\ (forall pre post, "t1" <> pre +:+ "/charts/" +:+ post).
Proof.
  apply (generic_names_well_formed ord_elements server_three_objects "").
  vm_compute. apply list_elem_of_here.
Defined.

Example TrimLeft_ex : strings.TrimLeft "//a/b/" "/" = "a/b/".
Proof. reflexivity. Qed.

Example Index_ex :
  strings.Index "repoA/charts/webapp-0.1.0.tgz" "/charts/" = 5
  /\ strings.Index "repoB/webapp-0.2.0.tgz" "/charts/" = -1
  /\ strings.IndexByte "repoB/webapp-0.2.0.tgz" "/" = 5
  /\ slice_to "repoB/webapp-0.2.0.tgz" 5 = "repoB".
Proof. repeat split. Qed.

(** The two sample iteration orders really differ, and the sorted result does
    not. *)
Example iteration_orders_differ :
  range_keys ord_elements {["a"; "b"; "c"]} = ["c"; "a"; "b"]
  /\ range_keys ord_reverse {["a"; "b"; "c"]} = ["b"; "a"; "c"]
  /\ sorted_keys ord_elements {["a"; "b"; "c"]} = ["a"; "b"; "c"]
  /\ sorted_keys ord_reverse {["a"; "b"; "c"]} = ["a"; "b"; "c"].
Proof. repeat split; by vm_compute. Qed.

(** The scenarios of the specification. *)
Example scenario_local_tree :
  listRepositoriesHandler ord_reverse os_two_repos server_three_objects
  = mkIO (JSON 200 (Strings ["repoA"; "repoB"]))
      [ CallGetenv "STORAGE_LOCAL_ROOTDIR"; CallStat "/charts"; CallReadDir "/charts";
        CallGlob "/charts/empty/charts/*.tgz"; CallGlob "/charts/empty/*.tgz";
        CallGlob "/charts/repoB/charts/*.tgz"; CallGlob "/charts/repoB/*.tgz";
        CallGlob "/charts/repoA/charts/*.tgz" ].
Proof. by vm_compute. Qed.

Example scenario_generic :
  listRepositoriesHandler ord_reverse os_unset server_three_objects
  = mkIO (JSON 200 (Strings ["t1"; "t2"]))
      [ CallGetenv "STORAGE_LOCAL_ROOTDIR"; CallListObjects "" ].
Proof. by vm_compute. Qed.

Example scenario_listing_error :
  listRepositoriesHandler ord_elements os_unset server_failing
  = mkIO (JSON 500 (H [("error", "backend unreachable")]))
      [ CallGetenv "STORAGE_LOCAL_ROOTDIR"; CallListObjects "" ].
Proof. by vm_compute. Qed.

(** * Further properties of the generic object discoverer *)

Section occurrences.

Implicit Types (s sub pre post a b : string) (c : ascii).

Lemma Index_not_found s sub :
  strings.Index s sub = -1 -> forall j, ~ occurs_at sub s j.
Proof.
  intros Heq. destruct (Index_spec s sub) as [[_ Hno] | (i & Hi & _)]; [done | lia].
Qed.

Lemma IndexByte_not_found s c :
  strings.IndexByte s c = -1 -> forall j, ~ occurs_at (String c "") s j.
Proof. rewrite IndexByte_Index. apply Index_not_found. Qed.

(** An occurrence of a pattern is an occurrence of its first byte. *)
Lemma occurs_at_head c sub s j :
  occurs_at (String c sub) s j -> occurs_at (String c "") s j.
Proof.
  intros (pre & post & -> & Hlen). exists pre, (sub +:+ post). split; [|done].
  by rewrite !append_cons, append_nil_l.
Qed.

Lemma occurs_at_app_ge a b sub j :
  occurs_at sub (a +:+ b) (String.length a + j) <-> occurs_at sub b j.
Proof.
  induction a as [|x a IH]; [done|].
  rewrite append_cons. simpl. by rewrite occurs_at_S.
Qed.

Lemma prefix_app_l sub a b :
  String.prefix sub (a +:+ b) = true ->
  (String.length sub <= String.length a)%nat ->
  String.prefix sub a = true.
Proof.
  revert sub. induction a as [|x a IH]; intros [|y sub]; simpl; try done; [lia|].
  destruct (ascii_dec y x); [|done].
  intros Hp Hlen. apply IH; [done | lia].
Qed.

(** An occurrence that ends inside the left part lies in the left part. *)
Lemma occurs_at_app_l a b sub j :
  occurs_at sub (a +:+ b) j ->
  (j + String.length sub <= String.length a)%nat ->
  occurs_at sub a j.
Proof.
  revert j. induction a as [|x a IH]; intros j.
  - intros Hocc Hlen. simpl in Hlen. assert (j = 0%nat) as -> by lia.
    destruct sub; [|simpl in Hlen; lia]. by exists "", "".
  - destruct j as [|j].
    + rewrite !occurs_at_0. intros Hp Hlen. by apply prefix_app_l with b.
    + rewrite append_cons, !occurs_at_S. simpl. intros Hocc Hlen.
      apply IH; [done | lia].
Qed.

(** An occurrence that starts inside the left part has its first byte there. *)
Lemma occurs_at_head_lt c sub a b j :
  occurs_at (String c sub) (a +:+ b) j ->
  (j < String.length a)%nat ->
  occurs_at (String c "") a j.
Proof.
  revert j. induction a as [|x a IH]; intros j; [simpl; lia|].
  destruct j as [|j].
  - rewrite !occurs_at_0, append_cons. simpl.
    destruct (ascii_dec c x); [|done]. by destruct a.
  - rewrite append_cons, !occurs_at_S. simpl. intros Hocc Hlen.
    apply IH; [done | lia].
Qed.

Lemma slashes_TrimLeft n path :
  strings.TrimLeft (slashes n +:+ path) "/" = strings.TrimLeft path "/".
Proof. induction n as [|n IH]; [done|]. simpl. exact IH. Qed.

Lemma Stripped_slashes n p :
  (forall t, p <> String "/" t) -> Stripped (slashes n +:+ p) p.
Proof. intros Hp. split; [by exists n | done]. Qed.

End occurrences.

Lemma nonempty_no_lead_slash_app repo rest :
  repo <> "" -> (forall t, repo <> String "/" t) ->
  forall t, repo +:+ rest <> String "/" t.
Proof.
  intros Hne Hlead t. destruct repo as [|a repo]; [done|].
  rewrite append_cons. intros [= -> _]. by destruct (Hlead repo).
Qed.

Lemma length_nonempty s : s <> "" -> (0 < String.length s)%nat.
Proof. destruct s; [done | simpl; lia]. Qed.

(** X1.  An object stored at [<repo>/charts/<file>], possibly with leading
    slashes, is listed under [<repo>], for every non-empty [<repo>] that has
    no leading slash and such that ["/charts/"] does not occur in
    [<repo>/charts] (nested names such as [org/team] included). *)
Theorem charts_layout_round_trip set n repo file :
  repo <> "" ->
  (forall t, repo <> String "/" t) ->
  strings.Index (repo +:+ "/charts") "/charts/" = -1 ->
  storage_body set (mkObject (slashes n +:+ repo +:+ "/charts/" +:+ file))
  = {[repo]} ∪ set.
Proof.
  intros Hne Hlead Hidx.
  apply (storage_body_Spec_InfersName set (mkObject _) (Some repo)). cbn [Path].
  exists (repo +:+ "/charts/" +:+ file). split.
  { apply Stripped_slashes. by apply nonempty_no_lead_slash_app. }
  apply Inferred_charts.
  - exists (String.length repo). split; [by apply length_nonempty|]. by exists repo, file.
  - split; [by exists file|]. intros j Hj Hocc.
    apply (Index_not_found _ _ Hidx j).
    apply occurs_at_app_l with ("/" +:+ file).
    + by rewrite append_assoc.
    + rewrite length_append. simpl. lia.
Qed.

Lemma charts_layout_round_trip_witness :
  storage_body ∅ (mkObject (slashes 2 +:+ "org/team" +:+ "/charts/" +:+ "web-1.0.tgz"))
  = {["org/team"]} ∪ ∅.
Proof.
  apply (charts_layout_round_trip ∅ 2 "org/team" "web-1.0.tgz");
    [discriminate | discriminate | by vm_compute].
Defined.

(** X2.  An object stored at [<repo>/<rest>], possibly with leading slashes,
    is listed under [<repo>], for every non-empty [<repo>] without ['/'] and
    every [<rest>] in which ["/charts/"] does not occur. *)
Theorem flat_layout_round_trip set n repo rest :
  repo <> "" ->
  strings.IndexByte repo "/" = -1 ->
  strings.Index rest "/charts/" = -1 ->
  storage_body set (mkObject (slashes n +:+ repo +:+ "/" +:+ rest)) = {[repo]} ∪ set.
Proof.
  intros Hne Hrepo Hrest.
  pose proof (IndexByte_not_found _ _ Hrepo) as Hnoslash.
  assert (forall sub tail j, (j < String.length repo)%nat ->
            ~ occurs_at (String "/" sub) (repo +:+ tail) j) as Hbefore.
  { intros sub tail j Hj Hocc. apply (Hnoslash j). by apply occurs_at_head_lt in Hocc. }
  assert (forall t, repo <> String "/" t) as Hlead.
  { intros t ->. apply (Hnoslash 0%nat). by exists "", t. }
  apply (storage_body_Spec_InfersName set (mkObject _) (Some repo)). cbn [Path].
  exists (repo +:+ "/" +:+ rest). split.
  { apply Stripped_slashes. by apply nonempty_no_lead_slash_app. }
  destruct (String.prefix "charts/" rest) eqn:Hpre.
  - apply prefix_true_iff in Hpre as [post ->].
    apply Inferred_charts.
    + exists (String.length repo). split; [by apply length_nonempty|]. by exists repo, post.
    + split; [by exists post|]. intros j Hj. by apply Hbefore.
  - apply Inferred_segment.
    + intros (j & _ & Hocc).
      destruct (Nat.lt_ge_cases j (String.length repo)) as [Hlt | Hge];
        [by apply Hbefore in Hocc|].
      replace j with (String.length repo + (j - String.length repo))%nat in Hocc by lia.
      apply occurs_at_app_ge in Hocc. rewrite append_cons, append_nil_l in Hocc.
      destruct (j - String.length repo)%nat as [|k].
      * apply occurs_at_0 in Hocc. simpl in Hocc. congruence.
      * apply occurs_at_S in Hocc. by apply (Index_not_found _ _ Hrest k).
    + exists (String.length repo). split; [by apply length_nonempty|]. by exists repo, rest.
    + split; [by exists rest|]. intros j Hj. by apply Hbefore.
Qed.

Lemma flat_layout_round_trip_witness :
  storage_body ∅ (mkObject (slashes 1 +:+ "repoB" +:+ "/" +:+ "charts/api-1.0.0.tgz"))
  = {["repoB"]} ∪ ∅.
Proof.
  apply (flat_layout_round_trip ∅ 1 "repoB" "charts/api-1.0.0.tgz");
    [discriminate | by vm_compute | by vm_compute].
Defined.

Lemma foldl_storage_body_slashes n objs set :
  foldl storage_body set ((fun o => mkObject (slashes n +:+ Path o)) <$> objs)
  = foldl storage_body set objs.
Proof.
  revert set. induction objs as [|o objs IH]; intros set; [done|].
  rewrite fmap_cons. cbn [foldl]. rewrite IH. f_equal.
  unfold storage_body. cbn [Path]. by rewrite slashes_TrimLeft.
Qed.

(** X3.  Leading slashes do not matter: a listing and the same listing with
    [n] slashes put before every path give the same names. *)
Theorem leading_slashes_are_ignored ord s1 s2 prefix1 prefix2 objs n :
  ListObjects (StorageBackend s1) prefix1 = (objs, None) ->
  ListObjects (StorageBackend s2) prefix2
  = ((fun o => mkObject (slashes n +:+ Path o)) <$> objs, None) ->
  value (discoverReposFromStorage ord s2 prefix2)
  = value (discoverReposFromStorage ord s1 prefix1).
Proof.
  intros H1 H2. rewrite !discoverReposFromStorage_run, H1, H2. cbn [value].
  by rewrite foldl_storage_body_slashes.
Qed.

Lemma leading_slashes_are_ignored_witness :
  value (discoverReposFromStorage ord_elements server_three_objects_slashed "")
  = value (discoverReposFromStorage ord_elements server_three_objects "").
Proof.
  apply (leading_slashes_are_ignored ord_elements server_three_objects
           server_three_objects_slashed "" ""
           (mkObject <$> ["t1/charts/a.tgz"; "t2/b.tgz"; "noslash"]) 1); reflexivity.
Defined.

Lemma elem_of_generic_names_iff ord s prefix objs name :
  ListObjects (StorageBackend s) prefix = (objs, None) ->
  name ∈ (value (discoverReposFromStorage ord s prefix)).1
  <-> exists path, path ∈ Path <$> objs /\ Spec_InfersName path (Some name).
Proof.
  intros Hlist. rewrite discoverReposFromStorage_run, Hlist. cbn [value fst].
  rewrite elem_of_sorted_keys, elem_of_foldl_storage_body. split.
  - intros [?%not_elem_of_empty | (o & Ho & Hn)]; [done|].
    exists (Path o). split; [by apply list_elem_of_fmap_2 | done].
  - intros (path & (o & -> & Ho)%list_elem_of_fmap & Hn). right. by exists o.
Qed.

Lemma Sorted_NoDup_ext (l1 l2 : list string) :
  Sorted String.le l1 -> Sorted String.le l2 -> NoDup l1 -> NoDup l2 ->
  (forall x, x ∈ l1 <-> x ∈ l2) -> l1 = l2.
Proof.
  intros S1 S2 N1 N2 Hext.
  apply (Sorted_unique String.le); [done | done |]. by apply NoDup_Permutation.
Qed.

(** X4.  The names depend only on the set of paths listed: neither the order
    of the objects, nor repeated objects, nor the prefix or the backend they
    come from, nor the iteration order of the map matter. *)
Theorem generic_result_depends_on_path_set ord1 ord2 s1 s2 prefix1 prefix2 objs1 objs2 :
  ListObjects (StorageBackend s1) prefix1 = (objs1, None) ->
  ListObjects (StorageBackend s2) prefix2 = (objs2, None) ->
  (forall path, path ∈ Path <$> objs1 <-> path ∈ Path <$> objs2) ->
  value (discoverReposFromStorage ord1 s1 prefix1)
  = value (discoverReposFromStorage ord2 s2 prefix2).
Proof.
  intros H1 H2 Hpaths.
  pose proof (elem_of_generic_names_iff ord1 s1 prefix1 objs1) as M1.
  pose proof (elem_of_generic_names_iff ord2 s2 prefix2 objs2) as M2.
  assert ((value (discoverReposFromStorage ord1 s1 prefix1)).1
          = (value (discoverReposFromStorage ord2 s2 prefix2)).1) as Hnames.
  { apply Sorted_NoDup_ext;
      auto using Sorted_generic_names, NoDup_generic_names.
    intros name. rewrite M1, M2 by done. by setoid_rewrite Hpaths. }
  revert Hnames. rewrite !discoverReposFromStorage_run, H1, H2. cbn [value fst].
  by intros ->.
Qed.

Lemma generic_result_depends_on_path_set_witness :
  value (discoverReposFromStorage ord_elements server_three_objects "")
  = value (discoverReposFromStorage ord_reverse server_three_objects_shuffled "x").
Proof.
  apply (generic_result_depends_on_path_set ord_elements ord_reverse
           server_three_objects server_three_objects_shuffled "" "x" _ _ eq_refl eq_refl).
  intros path. simpl. rewrite !elem_of_cons, !elem_of_nil. tauto.
Defined.

(** X5.  Listing more objects never removes a name: if every path of one
    listing occurs in another, every name found in the first is found in the
    second. *)
Theorem generic_result_monotone ord1 ord2 s1 s2 prefix1 prefix2 objs1 objs2 name :
  ListObjects (StorageBackend s1) prefix1 = (objs1, None) ->
  ListObjects (StorageBackend s2) prefix2 = (objs2, None) ->
  (forall path, path ∈ Path <$> objs1 -> path ∈ Path <$> objs2) ->
  name ∈ (value (discoverReposFromStorage ord1 s1 prefix1)).1 ->
  name ∈ (value (discoverReposFromStorage ord2 s2 prefix2)).1.
Proof.
  intros H1 H2 Hsub.
  rewrite (elem_of_generic_names_iff ord1 s1 prefix1 objs1 name H1).
  rewrite (elem_of_generic_names_iff ord2 s2 prefix2 objs2 name H2).
  intros (path & Hin & Hn). exists path. auto.
Qed.

Lemma generic_result_monotone_witness :
  "t2" ∈ (value (discoverReposFromStorage ord_reverse server_three_objects "")).1.
Proof.
  apply (generic_result_monotone ord_elements ord_reverse server_two_objects
           server_three_objects "" "" _ _ "t2" eq_refl eq_refl).
  - intros path. simpl. rewrite !elem_of_cons, !elem_of_nil. tauto.
  - vm_compute. apply list_elem_of_here.
Defined.

(** On a stripped path, no name is inferred exactly when there is no ['/']. *)
Lemma Spec_Inferred_None_iff p :
  (forall t, p <> String "/" t) ->
  Spec_Inferred p None <-> strings.IndexByte p "/" = -1.
Proof.
  intros Hp. split.
  - intros Hinf. inversion Hinf as [| | _ Hnoslash].
    rewrite IndexByte_Index.
    destruct (Index_spec p "/") as [[Heq _] | (i & _ & Hocc & _)]; [done|].
    destruct i as [|i]; [by apply stripped_not_at_start in Hocc|].
    destruct Hnoslash. exists (S i). split; [lia | done].
  - intros Hidx. pose proof (IndexByte_not_found _ _ Hidx) as Hno.
    apply Inferred_nothing; intros (j & _ & Hocc); apply (Hno j); [|done].
    by apply occurs_at_head in Hocc.
Qed.

(** X6.  When the listing succeeds, the result is empty exactly when no
    listed path has a ['/'] after its leading slashes: objects at the top
    level of the store belong to no repository. *)
Theorem generic_result_empty_iff ord s prefix objs :
  ListObjects (StorageBackend s) prefix = (objs, None) ->
  (value (discoverReposFromStorage ord s prefix)).1 = []
  <-> forall o, o ∈ objs -> strings.IndexByte (strings.TrimLeft (Path o) "/") "/" = -1.
Proof.
  intros Hlist.
  assert (forall o, Spec_InfersName (Path o) None
                    <-> strings.IndexByte (strings.TrimLeft (Path o) "/") "/" = -1) as Hnone.
  { intros o. rewrite <- Spec_Inferred_None_iff by apply trimLeftByte_no_lead.
    split.
    - by intros (p & ->%Stripped_iff & Hinf).
    - intros Hinf. eexists. split; [apply Stripped_TrimLeft | done]. }
  assert (forall name,
            name ∈ (value (discoverReposFromStorage ord s prefix)).1
            <-> exists o, o ∈ objs /\ Spec_InfersName (Path o) (Some name)) as Hmem.
  { intros name. rewrite discoverReposFromStorage_run, Hlist. cbn [value fst].
    rewrite elem_of_sorted_keys, elem_of_foldl_storage_body.
    split; [intros [?%not_elem_of_empty | ?]; done | by right]. }
  split.
  - intros Hnil o Ho. apply Hnone.
    destruct (Spec_InfersName_total (Path o)) as [[name|] Hr]; [|done].
    assert (name ∈ (value (discoverReposFromStorage ord s prefix)).1) as Hin
      by (apply Hmem; eauto).
    rewrite Hnil in Hin. by apply elem_of_nil in Hin.
  - intros Hall.
    destruct (value (discoverReposFromStorage ord s prefix)).1 as [|name names] eqn:Hnames;
      [done|].
    assert (name ∈ name :: names) as Hin by apply list_elem_of_here.
    apply Hmem in Hin as (o & Ho & Hinf).
    apply Hall, Hnone in Ho. by pose proof (Spec_InfersName_functional _ _ _ Hinf Ho).
Qed.

Lemma generic_result_empty_iff_witness :
  (value (discoverReposFromStorage ord_elements server_top_level_only "")).1 = [].
Proof.
  apply (generic_result_empty_iff ord_elements server_top_level_only "" _ eq_refl).
  intros o. simpl. rewrite !elem_of_cons, elem_of_nil.
  intros [-> | [-> | [-> | []]]]; by vm_compute.
Defined.

(** X7.  Every name returned by the generic object discoverer is a directory
    prefix of a listed path: after its leading slashes, some listed path
    reads [<name>/<rest>]. *)
Theorem generic_names_are_directory_prefixes ord s prefix name :
  name ∈ (value (discoverReposFromStorage ord s prefix)).1 ->
  exists o rest,
    o ∈ (ListObjects (StorageBackend s) prefix).1
    /\ strings.TrimLeft (Path o) "/" = name +:+ "/" +:+ rest.
Proof.
  intros (o & Ho & p & ->%Stripped_iff & Hinf)%elem_of_generic_names.
  exists o.
  inversion Hinf as [pre _ [[post Heq] _] | seg _ _ [[post Heq] _] | ]; subst.
  - exists ("charts/" +:+ post). split; [done|]. by rewrite Heq at 1.
  - exists post. split; [done|]. by rewrite Heq at 1.
Qed.

Lemma generic_names_are_directory_prefixes_witness :
  exists o rest,
    o ∈ (ListObjects (StorageBackend server_three_objects_slashed) "").1
    /\ strings.TrimLeft (Path o) "/" = "t1" +:+ "/" +:+ rest.
Proof.
  apply (generic_names_are_directory_prefixes ord_elements server_three_objects_slashed "").
  vm_compute. apply list_elem_of_here.
Defined.

(** * Further properties of the local-tree discoverer and of the handler *)

(** X8.  The local-tree discoverer reports that it is applicable exactly when
    it returns at least one name: it never answers with an empty list. *)
Theorem local_tree_applicable_iff_nonempty ord os s :
  (value (discoverReposLocalFS ord os s)).2 = true
  <-> (value (discoverReposLocalFS ord os s)).1 <> [].
Proof.
  rewrite discoverReposLocalFS_value. cbn zeta.
  case_decide; [done|]. destruct (Stat os _) as [fi|]; [|done].
  destruct (negb _); [done|]. destruct (ReadDir os _) as [entries [e|]]; [done|].
  cbn zeta. case_decide as Hsize; [done|]. cbn [fst snd].
  split; [|done]. intros _ Hnil%sorted_keys_nil_iff.
  apply Hsize. rewrite Hnil. apply size_empty.
Qed.

(** X9.  The handler has two outcomes only.  It answers 500 exactly when
    the local-tree discoverer was not applicable and [ListObjects ""]
    returned an error, and the body then carries the message of that error;
    in every other case it answers 200 with a sorted list of pairwise
    distinct names. *)
Theorem handler_response_cases ord os s :
  let r := value (listRepositoriesHandler ord os s) in
  let listing_failed :=
    (value (discoverReposLocalFS ord os s)).2 = false
    /\ exists err, (ListObjects (StorageBackend s) "").2 = Some err in
  (status r = 500 <-> listing_failed)
  /\ (status r = 200 <-> ~ listing_failed)
  /\ (listing_failed ->
      exists err, (ListObjects (StorageBackend s) "").2 = Some err
                  /\ body r = H [("error", Error err)])
  /\ (~ listing_failed ->
      exists names, body r = Strings names /\ Sorted String.le names /\ NoDup names).
Proof.
  cbn zeta. rewrite handler_value.
  pose proof (Sorted_local_names ord os s) as SL.
  pose proof (NoDup_local_names ord os s) as NL.
  pose proof (Sorted_generic_names ord s "") as SG.
  pose proof (NoDup_generic_names ord s "") as NG.
  destruct (value (discoverReposLocalFS ord os s)) as [names [|]]; cbn [fst snd] in *.
  { cbn [status body]. unfold http.StatusOK.
    split; [split; [discriminate | by intros [? _]]|].
    split; [split; [by intros _ [? _] | done]|].
    split; [by intros [? _]|]. intros _. by exists names. }
  revert SG NG. rewrite discoverReposFromStorage_run.
  destruct (ListObjects (StorageBackend s) "") as [objs [err|]];
    cbn [value fst snd respond_generic status body];
    unfold http.StatusOK, http.StatusInternalServerError; intros SG NG.
  - assert (false = false /\ exists err0 : error, Some err = Some err0) as Hfailed
      by (split; [done | by exists err]).
    split; [split; done|].
    split; [split; [discriminate | by intros Hno]|].
    split; [intros _; by exists err | by intros Hno].
  - assert (~ (false = false /\ exists err0 : error, (None : option error) = Some err0))
      as Hok by (by intros (_ & err0 & ?)).
    split; [split; [discriminate | by intros Hf]|].
    split; [split; done|].
    split; [by intros Hf | intros _; by eexists].
Qed.

Lemma local_only_no_ListObjects t :
  local_only t -> List.filter is_ListObjects_call t = [].
Proof.
  induction 1 as [|e t He _ IH]; [done|]. simpl. rewrite IH. by destruct e.
Qed.

(** X10.  During a request [ListObjects] is called at most once, only with
    the empty prefix, and only when the local-tree discoverer was not
    applicable; every other call of the request precedes it. *)
Theorem handler_lists_objects_at_most_once ord os s :
  List.filter is_ListObjects_call (trace (listRepositoriesHandler ord os s))
  = (if (value (discoverReposLocalFS ord os s)).2 then [] else [CallListObjects ""])
  /\ trace (listRepositoriesHandler ord os s)
     = List.filter (fun e => negb (is_ListObjects_call e))
         (trace (listRepositoriesHandler ord os s))
       ++ List.filter is_ListObjects_call (trace (listRepositoriesHandler ord os s)).
Proof.
  rewrite handler_trace.
  pose proof (discoverReposLocalFS_local_only ord os s) as Hlocal.
  assert (List.filter (fun e => negb (is_ListObjects_call e))
            (trace (discoverReposLocalFS ord os s))
          = trace (discoverReposLocalFS ord os s)) as Hkeep.
  { induction Hlocal as [|e t He _ IH]; [done|]. simpl. rewrite IH. by destruct e. }
  rewrite !List.filter_app, Hkeep, (local_only_no_ListObjects _ Hlocal).
  destruct (value (discoverReposLocalFS ord os s)).2.
  - by rewrite !app_nil_r.
  - rewrite discoverReposFromStorage_trace. simpl. by rewrite app_nil_r.
Qed.

Lemma filter_negb_filter {A} (f : A -> bool) (l : list A) :
  List.filter (fun x => negb (f x)) (List.filter f l) = [].
Proof.
  induction l as [|x l IH]; [done|]. simpl.
  destruct (f x) eqn:Hx; [|done]. simpl. by rewrite Hx.
Qed.

Lemma glob_loop_trace_bound os repo set globs :
  List.filter is_glob_call (trace (glob_loop os repo set globs))
  = trace (glob_loop os repo set globs)
  /\ (length (trace (glob_loop os repo set globs)) <= length globs)%nat.
Proof.
  induction globs as [|g globs [IHf IHl]]; simpl; [done|].
  destruct (Glob os g) as [matches e]. destruct (0 <? _); simpl.
  - split; [done | lia].
  - rewrite IHf. split; [done | lia].
Qed.

Lemma localFS_body_trace_bound os root set e :
  List.filter is_glob_call (trace (localFS_body os root set e))
  = trace (localFS_body os root set e)
  /\ (length (trace (localFS_body os root set e)) <= if IsDir e then 2 else 0)%nat.
Proof.
  unfold localFS_body. destruct (IsDir e); cbn [negb]; [|done].
  apply (glob_loop_trace_bound os (Name e) set [_; _]).
Qed.

Lemma localFS_loop_trace_bound os root entries set :
  List.filter is_glob_call (trace (for_range (localFS_body os root) set entries))
  = trace (for_range (localFS_body os root) set entries)
  /\ (length (trace (for_range (localFS_body os root) set entries))
      <= 2 * length (List.filter IsDir entries))%nat.
Proof.
  revert set. induction entries as [|e entries IH]; intros set; [done|].
  cbn [for_range]. rewrite trace_bind, List.filter_app, length_app.
  destruct (IH (value (localFS_body os root set e))) as [IHf IHl].
  destruct (localFS_body_trace_bound os root set e) as [Hf Hl].
  rewrite IHf, Hf. split; [done|].
  cbn [List.filter]. destruct (IsDir e); simpl; lia.
Qed.

(** X11.  The local-tree discoverer reads the environment, inspects the root
    and enumerates it at most once each; every other call is a glob, and
    there are at most two globs per child directory of the root and none for
    its other entries. *)
Theorem local_tree_call_budget ord os s :
  let t := trace (discoverReposLocalFS ord os s) in
  let entries := (ReadDir os (Getenv os "STORAGE_LOCAL_ROOTDIR")).1 in
  (length (List.filter (fun e => negb (is_glob_call e)) t) <= 3)%nat
  /\ (length (List.filter is_glob_call t) <= 2 * length (List.filter IsDir entries))%nat.
Proof.
  cbn zeta. rewrite discoverReposLocalFS_trace. cbn zeta. cbn [List.filter is_glob_call negb].
  case_decide; [simpl; lia|]. cbn [List.filter is_glob_call negb].
  destruct (Stat os _) as [fi|]; [|simpl; lia].
  destruct (negb _); [simpl; lia|]. cbn [List.filter is_glob_call negb].
  destruct (ReadDir os _) as [entries [e|]]; [simpl; lia|]. cbn [fst].
  destruct (localFS_loop_trace_bound os (Getenv os "STORAGE_LOCAL_ROOTDIR") entries ∅)
    as [Hf Hl].
  rewrite Hf. split; [|lia].
  assert (List.filter (fun e => negb (is_glob_call e))
            (trace (for_range (localFS_body os (Getenv os "STORAGE_LOCAL_ROOTDIR")) ∅ entries))
          = []) as ->; [|simpl; lia].
  rewrite <- Hf. apply filter_negb_filter.
Qed.

(** X18.  The response of the handler and the calls it makes do not depend
    on the order in which the keys of the maps are visited. *)
Theorem handler_independent_of_map_order ord1 ord2 os s :
  listRepositoriesHandler ord1 os s = listRepositoriesHandler ord2 os s.
Proof.
  assert (value (discoverReposLocalFS ord1 os s) = value (discoverReposLocalFS ord2 os s))
    as Hlocal.
  { rewrite !discoverReposLocalFS_value. cbn zeta.
    case_decide; [done|]. destruct (Stat os _) as [fi|]; [|done].
    destruct (negb _); [done|]. destruct (ReadDir os _) as [entries [e|]]; [done|].
    cbn zeta. case_decide; [done|].
    by rewrite (sorted_keys_order_irrelevant ord1 ord2). }
  assert (discoverReposFromStorage ord1 s "" = discoverReposFromStorage ord2 s "")
    as Hgeneric.
  { rewrite !discoverReposFromStorage_run.
    destruct (ListObjects _ _) as [objs [err|]]; [done|].
    by rewrite (sorted_keys_order_irrelevant ord1 ord2). }
  apply IO_eq.
  - by rewrite !handler_value, Hlocal, Hgeneric.
  - by rewrite !handler_trace, !discoverReposLocalFS_trace, Hlocal, Hgeneric.
Qed.

(** * Properties of the route table *)

Section route_table_facts.

Variables (PullAction PushAction : string).

(** The sixteen combinations of the four tests made by [Routes]. *)
Ltac routes_cases cfg :=
  destruct cfg as [n w api dd]; unfold Routes;
  cbn [ArtifactHubRepoID_len WebTemplatePath APIEnabled DisableDelete
       allowListRepos allowChartsAll];
  destruct (n =? 0); destruct (decide (w <> "")); destruct api; destruct dd;
  cbn [negb andb app serverInfoRoutes helmChartRepositoryRoutes artifactHubRoutes
       chartManipulationRoutes repositoryListingRoutes chartsAllRoutes].

Ltac decide_true :=
  match goal with
  | |- ?P => apply (bool_decide_eq_true_1 P); vm_compute; reflexivity
  end.
Ltac decide_false H :=
  match type of H with
  | ?P => exfalso; refine (bool_decide_eq_false_1 P _ H); vm_compute; reflexivity
  end.

(** X12.  The listing endpoint [GET /api/repositories] is registered exactly
    when the API is enabled, and the only route on that path is the one
    handled by [listRepositoriesHandler]. *)
Theorem repositories_route_iff_api_enabled s cfg :
  (Exists (fun r => route_key r = ("GET", "/api/repositories")) (Routes PullAction PushAction s cfg)
   <-> APIEnabled cfg = true)
  /\ (forall r, r ∈ Routes PullAction PushAction s cfg -> cm_router.Path r = "/api/repositories" ->
        r = cm_router.mkRoute "GET" "/api/repositories" listRepositoriesHandlerRef
              PullAction).
Proof.
  split.
  - routes_cases cfg;
      (split; [intros Hex | intros Hapi]);
      first [ reflexivity | discriminate Hapi | decide_true | decide_false Hex ].
  - intros r. routes_cases cfg; intros Hin Hpath;
      repeat (apply elem_of_cons in Hin as [-> | Hin];
              [first [discriminate Hpath | reflexivity] |]);
      by apply elem_of_nil in Hin.
Qed.

(** X13.  The route [/api/charts-all] and its handler are never registered,
    whatever the settings. *)
Theorem charts_all_route_never_registered s cfg :
  Forall (fun r => cm_router.Path r <> "/api/charts-all"
                   /\ cm_router.Handler r <> listAllChartsAcrossReposHandlerRef)
    (Routes PullAction PushAction s cfg).
Proof.
  routes_cases cfg;
    repeat (apply Forall_cons_2; [split; discriminate |]); apply Forall_nil_2.
Qed.

(** X14.  Routes with a method other than GET and HEAD exist exactly when the
    API is enabled, and a DELETE route exists exactly when the API is enabled
    and deletion is not disabled. *)
Theorem write_routes_need_api s cfg :
  (Exists (fun r => cm_router.Method r <> "GET" /\ cm_router.Method r <> "HEAD")
     (Routes PullAction PushAction s cfg)
   <-> APIEnabled cfg = true)
  /\ (Exists (fun r => cm_router.Method r = "DELETE") (Routes PullAction PushAction s cfg)
      <-> APIEnabled cfg = true /\ DisableDelete cfg = false).
Proof.
  split.
  - routes_cases cfg;
      (split; [intros Hex | intros Hapi]);
      first [ reflexivity | discriminate Hapi | decide_true | decide_false Hex ].
  - routes_cases cfg;
      (split; [intros Hex | intros [Hapi Hdel]]);
      first [ by split | discriminate Hapi | discriminate Hdel
            | decide_true | decide_false Hex ].
Qed.

(** X15.  No two routes of the table are registered under the same method
    and path, whatever the settings. *)
Theorem route_keys_are_distinct s cfg :
  NoDup (route_key <$> Routes PullAction PushAction s cfg).
Proof. routes_cases cfg; decide_true. Qed.

(** X16.  Switching an option off only removes routes: every table is a
    subsequence, in the same order, of the table with every option on. *)
Theorem routes_sublist_of_full_table s cfg :
  sublist (Routes PullAction PushAction s cfg) (Routes PullAction PushAction s settings_all_on).
Proof.
  routes_cases cfg; vm_compute;
    repeat first [ apply sublist_nil | apply sublist_skip | apply sublist_cons ].
Qed.

(** X17.  The action required by a route follows its method: GET and HEAD
    routes require the pull action or none, POST and DELETE routes require
    the push action. *)
Theorem route_actions_follow_methods s cfg :
  Forall (fun r =>
            ((cm_router.Method r = "GET" \/ cm_router.Method r = "HEAD")
             /\ (cm_router.Action r = PullAction \/ cm_router.Action r = ""))
            \/ ((cm_router.Method r = "POST" \/ cm_router.Method r = "DELETE")
                /\ cm_router.Action r = PushAction))
    (Routes PullAction PushAction s cfg).
Proof.
  routes_cases cfg;
    repeat (apply Forall_cons_2;
            [ cbn [cm_router.Method cm_router.Action];
              first [ left; split; [ first [left; reflexivity | right; reflexivity]
                                   | first [left; reflexivity | right; reflexivity] ]
                    | right; split; [ first [left; reflexivity | right; reflexivity]
                                    | reflexivity ] ] |]);
    apply Forall_nil_2.
Qed.

End route_table_facts.
